(** * Coulomb-law charge simulation: the physics core of [simulation.py]

    A shallow embedding of the charge array, the force engine
    ([compute_forces]), the integrator ([update_physics]), the per-frame
    [update], the preset loading of [ChargeSimulation] and the controls of
    [ui.py], followed by the properties the specification states about them.

    The arithmetic of the program is [numpy.float64].  The embedding is
    written once over an interface of scalar operations ([Scalar]) and is
    instantiated twice: by IEEE binary64 (Rocq's primitive floats), on which
    the code can be run as it is, and by the real numbers.  Properties that
    depend on arithmetic facts are proved from a small set of laws
    ([ScalarLaws]) that both instances satisfy.

    numpy arrays are mutable and shared by reference; they live in a store
    ([Heap]), and the methods of the simulation are computations on that
    store that may raise ([M]). *)

From Stdlib Require Import ZArith Floats Reals Lra.
From stdpp Require Import base option list gmap strings.

Set Default Proof Using "Type".
Set Warnings "-inexact-float,-clear-no-such-hyp".

(** ** Scalars *)

(** The operations [compute_forces] and [update_physics] apply to
    [np.float64] values, and the literals of the module. *)
Class Scalar (F : Type) := {
  fzero : F;                      (* an entry of [np.zeros] *)
  k_e : F;                        (* 8.988e9 *)
  softening : F;                  (* 1e-14 *)
  default_dt : F;                 (* 0.005 *)
  of_int : Z → F;                 (* an int passed where a float64 is used *)
  fadd : F → F → F;
  fsub : F → F → F;
  fmul : F → F → F;
  fdiv : F → F → F;
  fsqrt : F → F;                  (* [np.sqrt] *)
  fpow : F → positive → F;        (* [x ** n] for a literal [n] *)
  flt : F → F → bool;             (* [x < y] *)
}.

Declare Scope scalar_scope.
Delimit Scope scalar_scope with S.
Infix "+" := fadd : scalar_scope.
Infix "-" := fsub : scalar_scope.
Infix "*" := fmul : scalar_scope.
Infix "/" := fdiv : scalar_scope.
Infix "**" := fpow (at level 30, right associativity) : scalar_scope.
Infix "<?" := flt : scalar_scope.

(** ** Data model *)

Section Model.
Context {F : Type} `{Scalar F}.

(** A [(3,)] array of float64: positions, velocities, forces. *)
Record Vec3 := mkVec3 { c0 : F; c1 : F; c2 : F }.

Definition zero3 : Vec3 := mkVec3 fzero fzero fzero.

(** Elementwise numpy operations on [(3,)] arrays. *)
Definition vadd (a b : Vec3) : Vec3 :=
  mkVec3 (c0 a + c0 b)%S (c1 a + c1 b)%S (c2 a + c2 b)%S.
Definition vsub (a b : Vec3) : Vec3 :=
  mkVec3 (c0 a - c0 b)%S (c1 a - c1 b)%S (c2 a - c2 b)%S.
(** [s * v] for a scalar [s]. *)
Definition scale (s : F) (v : Vec3) : Vec3 :=
  mkVec3 (s * c0 v)%S (s * c1 v)%S (s * c2 v)%S.
(** [v * s] for a scalar [s]. *)
Definition vmuls (v : Vec3) (s : F) : Vec3 :=
  mkVec3 (c0 v * s)%S (c1 v * s)%S (c2 v * s)%S.
(** [v / s] for a scalar [s]. *)
Definition vdivs (v : Vec3) (s : F) : Vec3 :=
  mkVec3 (c0 v / s)%S (c1 v / s)%S (c2 v / s)%S.
(** [np.any(v < b)] and [np.any(v > b)]. *)
Definition any_lt (v : Vec3) (b : F) : bool :=
  (c0 v <? b)%S || (c1 v <? b)%S || (c2 v <? b)%S.
Definition any_gt (v : Vec3) (b : F) : bool :=
  (b <? c0 v)%S || (b <? c1 v)%S || (b <? c2 v)%S.

(** One element of an array of [charge_dtype]. *)
Record Charge := mkCharge {
  pos : Vec3;
  vel : Vec3;
  q : F;
  m : F;
  active : bool;
}.

Definition set_vel (c : Charge) (v : Vec3) : Charge :=
  mkCharge (pos c) v (q c) (m c) (active c).
Definition set_pos (c : Charge) (p : Vec3) : Charge :=
  mkCharge p (vel c) (q c) (m c) (active c).
Definition set_active (c : Charge) (b : bool) : Charge :=
  mkCharge (pos c) (vel c) (q c) (m c) b.

(** ** Force engine *)

(** The three assignments in the body of the inner loop of
    [compute_forces]: [r], [dist] and [force_mag]. *)
Definition displacement (ci cj : Charge) : Vec3 := vsub (pos cj) (pos ci).

Definition distance (r : Vec3) : F :=
  (fsqrt (c0 r ** 2 + c1 r ** 2 + c2 r ** 2) + softening)%S.

Definition force_mag (ci cj : Charge) : F :=
  (k_e * q ci * q cj / distance (displacement ci cj) ** 3)%S.

(** [force_mag * r], the vector added to [forces[i]] and subtracted from
    [forces[j]]. *)
Definition pair_term (ci cj : Charge) : Vec3 :=
  scale (force_mag ci cj) (displacement ci cj).

(** [forces[i] += t] and [forces[j] -= t]. *)
Definition accumulate (i j : nat) (t : Vec3) (forces : list Vec3) : list Vec3 :=
  alter (λ f, vsub f t) j (alter (λ f, vadd f t) i forces).

(** The body of the inner loop, at [j], for the particle [ci] at [i]. *)
Definition inner_step (charges : list Charge) (i : nat) (ci : Charge)
    (forces : list Vec3) (j : nat) : list Vec3 :=
  match charges !! j with
  | Some cj =>
      if negb (active cj) then forces
      else accumulate i j (pair_term ci cj) forces
  | None => forces
  end.

(** The body of the outer loop, at [i]. *)
Definition outer_step (charges : list Charge) (forces : list Vec3) (i : nat)
    : list Vec3 :=
  let n := length charges in
  match charges !! i with
  | Some ci =>
      if negb (active ci) then forces
      else foldl (inner_step charges i ci) forces (seq (S i) (n - S i))
  | None => forces
  end.

Definition compute_forces (charges : list Charge) : list Vec3 :=
  let n := length charges in
  foldl (outer_step charges) (replicate n zero3) (seq 0 n).

(** ** Integrator *)

(** The body of the loop of [update_physics] for an active particle [c]
    with force [f]. *)
Definition euler_step (c : Charge) (f : Vec3) (dt : F) (boundary : F * F)
    : Charge :=
  let c := set_vel c (vadd (vel c) (vmuls (vdivs f (m c)) dt)) in
  let c := set_pos c (vadd (pos c) (vmuls (vel c) dt)) in
  if any_lt (pos c) (fst boundary) || any_gt (pos c) (snd boundary)
  then set_active c false
  else c.

(** The body of the loop at [i].  [forces[i]] is read only for an active
    particle; an index outside [forces] is an error. *)
Definition physics_step (forces : list Vec3) (dt : F) (boundary : F * F)
    (charges : option (list Charge)) (i : nat) : option (list Charge) :=
  cs ← charges;
  c ← cs !! i;
  if active c then
    f ← forces !! i;
    Some (<[i := euler_step c f dt boundary]> cs)
  else Some cs.

Definition update_physics (charges : list Charge) (forces : list Vec3)
    (dt : F) (boundary : F * F) : option (list Charge) :=
  foldl (physics_step forces dt boundary) (Some charges)
        (seq 0 (length charges)).

(** ** Arrays, presets and the simulation object *)

(** A row of a [colors] array. *)
Record Color := mkColor { red : F; green : F; blue : F; alpha : F }.

(** numpy arrays are mutable objects reached through references: a preset
    and a simulation hold references into a store of arrays, and
    [ndarray.copy] allocates a new array. *)
Definition loc := nat.

Record Heap := mkHeap {
  charge_arrays : gmap loc (list Charge);
  color_arrays : gmap loc (list Color);
}.

(** An entry of [preset_configs]. *)
Record Preset := mkPreset {
  preset_name : string;
  preset_charges : loc;
  preset_colors : loc;
}.

(** The attributes of a [ChargeSimulation] the physics uses; the canvas, the
    markers, the trajectory lines and the timer belong to the rendering
    library and are left out. *)
Record ChargeSimulation := mkSim {
  dt : F;
  presets : list Preset;
  current_preset : Z;
  charges : loc;
  colors : loc;
  trajectories : list (list Vec3);
  running : bool;
}.

(** Computations on the store that may raise an exception. *)
Definition M (A : Type) : Type := Heap → option (A * Heap).

Definition ret {A} (a : A) : M A := λ h, Some (a, h).
Definition bind {A B} (c : M A) (k : A → M B) : M B :=
  λ h, match c h with Some (a, h') => k a h' | None => None end.
Definition raise {A} : M A := λ _, None.
Definition lift {A} (o : option A) : M A :=
  λ h, match o with Some a => Some (a, h) | None => None end.

Notation "'let!' x := c 'in' k" := (bind c (λ x, k))
  (at level 10, x name, c at level 200, k at level 200, only parsing).

Definition read_charges (l : loc) : M (list Charge) :=
  λ h, lift (charge_arrays h !! l) h.
Definition write_charges (l : loc) (cs : list Charge) : M unit :=
  λ h, Some (tt, mkHeap (<[l := cs]> (charge_arrays h)) (color_arrays h)).
Definition copy_charges (l : loc) : M loc :=
  λ h, match charge_arrays h !! l with
       | Some cs =>
           let l' := fresh (dom (charge_arrays h)) in
           Some (l', mkHeap (<[l' := cs]> (charge_arrays h)) (color_arrays h))
       | None => None
       end.
Definition copy_colors (l : loc) : M loc :=
  λ h, match color_arrays h !! l with
       | Some cs =>
           let l' := fresh (dom (color_arrays h)) in
           Some (l', mkHeap (charge_arrays h) (<[l' := cs]> (color_arrays h)))
       | None => None
       end.

(** [l[i]] on a Python list: a negative index counts from the end, an index
    out of range raises [IndexError]. *)
Definition getitem {A} (l : list A) (i : Z) : option A :=
  if (0 <=? i)%Z then l !! Z.to_nat i
  else if (- Z.of_nat (length l) <=? i)%Z
       then l !! Z.to_nat (Z.of_nat (length l) + i)
       else None.

(** [self.charges["m"].max()], the one step of the rendering code that
    depends on the charge array alone: the maximum of an empty array raises
    [ValueError].  Its value is used for marker sizes only. *)
Definition mass_max_check (l : loc) : M unit :=
  let! cs := read_charges l in
  match cs with [] => raise | _ :: _ => ret tt end.

Definition _update_visuals_initial (self : ChargeSimulation) : M unit :=
  mass_max_check (charges self).

(** The three assignments shared by [__init__] and [reset_simulation]:
    [self.charges], [self.colors] and [self.trajectories]. *)
Definition load_arrays (self : ChargeSimulation) : M ChargeSimulation :=
  let! p := lift (getitem (presets self) (current_preset self)) in
  let! new_charges := copy_charges (preset_charges p) in
  let! new_colors := copy_colors (preset_colors p) in
  let! cs := read_charges new_charges in
  ret (mkSim (dt self) (presets self) (current_preset self)
             new_charges new_colors (replicate (length cs) []) (running self)).

(** [ChargeSimulation.__init__], with [preset_configs] as an argument. *)
Definition init (preset_configs : list Preset) : M ChargeSimulation :=
  let self := mkSim default_dt preset_configs 0 0 0 [] false in
  let! self := load_arrays self in
  let! _ := _update_visuals_initial self in
  ret self.

Definition reset_simulation (self : ChargeSimulation)
    (preset_index : option Z) : M ChargeSimulation :=
  let self :=
    match preset_index with
    | Some i => mkSim (dt self) (presets self) i (charges self) (colors self)
                      (trajectories self) (running self)
    | None => self
    end in
  let! self := load_arrays self in
  let! _ := _update_visuals_initial self in
  ret self.

(** [self.trajectories[i].append(self.charges["pos"][i].copy())]. *)
Definition record_step (cs : list Charge)
    (trs : option (list (list Vec3))) (i : nat) : option (list (list Vec3)) :=
  ts ← trs;
  t ← ts !! i;
  c ← cs !! i;
  Some (<[i := t ++ [pos c]]> ts).

Definition record_positions (cs : list Charge) (trs : list (list Vec3))
    : option (list (list Vec3)) :=
  foldl (record_step cs) (Some trs) (seq 0 (length cs)).

(** The bounds [update] passes to [update_physics]. *)
Definition boundary : F * F := (of_int (-100000), of_int 100000).

(** [ChargeSimulation.update]: one frame.  The statements that draw are
    left out.  Of these the loop over [self.traj_lines], one line per color
    of the loaded preset, reads [self.trajectories[i]], which is in range
    when the preset has no more colors than particles; the properties that
    rely on a frame of a loaded preset ask for one color per particle. *)
Definition update (self : ChargeSimulation) : M ChargeSimulation :=
  if negb (running self) then ret self
  else
    let! cs := read_charges (charges self) in
    let forces := compute_forces cs in
    let! cs' := lift (update_physics cs forces (dt self) boundary) in
    let! _ := write_charges (charges self) cs' in
    let! trs := lift (record_positions cs' (trajectories self)) in
    let! _ := mass_max_check (charges self) in
    ret (mkSim (dt self) (presets self) (current_preset self) (charges self)
               (colors self) trs (running self)).

(** ** The user interface

    What [ui.py] does to the simulation: the timer calls [update], and the
    controls of [MainWindow] call [reset_simulation] or assign [running] and
    [dt]. *)
Inductive Event :=
  | Frame                       (* the timer fires: [sim.update(event)] *)
  | TogglePause                 (* [MainWindow.toggle_pause] *)
  | UpdateDt (value : Z)        (* [MainWindow.update_dt(value)] *)
  | LoadPreset (index : Z)      (* [MainWindow.load_preset(index)] *)
  | ResetButton.                (* the lambda connected to the reset button *)

Definition set_running (self : ChargeSimulation) (b : bool) : ChargeSimulation :=
  mkSim (dt self) (presets self) (current_preset self) (charges self)
        (colors self) (trajectories self) b.
Definition set_dt (self : ChargeSimulation) (x : F) : ChargeSimulation :=
  mkSim x (presets self) (current_preset self) (charges self)
        (colors self) (trajectories self) (running self).

Definition handle (self : ChargeSimulation) (e : Event) : M ChargeSimulation :=
  match e with
  | Frame => update self
  | TogglePause => ret (set_running self (negb (running self)))
  | UpdateDt value => ret (set_dt self (of_int value / of_int 2000)%S)
  | LoadPreset index => reset_simulation self (Some index)
  | ResetButton => reset_simulation self (Some (current_preset self))
  end.

Fixpoint run (es : list Event) (self : ChargeSimulation) : M ChargeSimulation :=
  match es with
  | [] => ret self
  | e :: es => let! self := handle self e in run es self
  end.

(** An event that loads a preset starts a new run. *)
Definition is_reset (e : Event) : bool :=
  match e with LoadPreset _ | ResetButton => true | _ => false end.

(** The number of frames of [es] on which the simulation advances, when it
    starts with [running = r]. *)
Fixpoint advanced (es : list Event) (r : bool) : nat :=
  match es with
  | [] => 0
  | Frame :: es => (if r then 1 else 0) + advanced es r
  | TogglePause :: es => advanced es (negb r)
  | _ :: es => advanced es r
  end.

End Model.

Arguments Vec3 F : clear implicits.
Arguments Charge F : clear implicits.
Arguments Color F : clear implicits.
Arguments Heap F : clear implicits.
Arguments Preset : clear implicits.
Arguments ChargeSimulation F : clear implicits.
Arguments M F : clear implicits.

(** ** The two arithmetics *)

(** IEEE binary64.  A decimal literal denotes the nearest binary64 value,
    as it does in Python.  A power with a literal exponent is compiled to
    multiplications (square and multiply from the low bit). *)
Definition float_pow (x : float) (n : positive) : float :=
  Pos.iter_op PrimFloat.mul n x.

Definition float_of_int (z : Z) : float :=
  match z with
  | Z0 => 0%float
  | Zpos p => PrimFloat.of_uint63 (Uint63.of_Z (Zpos p))
  | Zneg p => PrimFloat.opp (PrimFloat.of_uint63 (Uint63.of_Z (Zpos p)))
  end.

#[export] Instance float64 : Scalar float := {
  fzero := 0%float;
  k_e := 8.988e9%float;
  softening := 1e-14%float;
  default_dt := 0.005%float;
  of_int := float_of_int;
  fadd := PrimFloat.add;
  fsub := PrimFloat.sub;
  fmul := PrimFloat.mul;
  fdiv := PrimFloat.div;
  fsqrt := PrimFloat.sqrt;
  fpow := float_pow;
  flt := PrimFloat.ltb;
}.

(** The real numbers. *)
Definition Rltb (x y : R) : bool := if Rlt_dec x y then true else false.

#[export] Instance real : Scalar R := {
  fzero := 0%R;
  k_e := 8988000000%R;
  softening := (/ 10 ^ 14)%R;
  default_dt := (5 / 1000)%R;
  of_int := IZR;
  fadd := Rplus;
  fsub := Rminus;
  fmul := Rmult;
  fdiv := Rdiv;
  fsqrt := sqrt;
  fpow := λ x n, (x ^ Pos.to_nat n)%R;
  flt := Rltb;
}.

(** ** The time-step slider *)

(** Python's [int(x)] for a float: the value truncated toward zero;
    [OverflowError] for an infinity and [ValueError] for a NaN. *)
Definition py_int (x : float) : option Z :=
  match Prim2SF x with
  | S754_zero _ => Some 0%Z
  | S754_finite s m e =>
      let a := Z.shiftl (Zpos m) e in
      Some (if s then - a else a)%Z
  | S754_infinity _ | S754_nan => None
  end.

(** [int(self.sim.dt * 2000)], the value [createOverlayControls] gives the
    slider. *)
Definition slider_value (dt : float) : option Z :=
  py_int (dt * float_of_int 2000)%float.

(** ** Presets *)

(** The charge arrays of the presets of [preset_configs] that are written
    out as literals: "Orbital", "Dipole" and "Stable Binary".  (The other
    presets are computed from [np.cos], [np.sin] and [np.random] when the
    module is imported.) *)
Definition particle (p v : float * float * float) (q m : float) (a : bool)
    : Charge float :=
  let '(px, py, pz) := p in
  let '(vx, vy, vz) := v in
  mkCharge (mkVec3 px py pz) (mkVec3 vx vy vz) q m a.

Definition Orbital : list (Charge float) := [
  particle (5.0, 5.0, 5.0) (0.0, 0.0, 0.0) 8e-6 5e-2 true;
  particle (7.0, 5.0, 5.0) (0.0, 40.0, 0.0) (-2e-6) 1e-3 true;
  particle (3.0, 5.0, 5.0) (0.0, -40.0, 0.0) (-2e-6) 1e-3 true;
  particle (7.5, 7.5, 5.0) (-4.242, 4.242, 0.0) (-3e-6) 3e-3 true;
  particle (2.5, 7.5, 5.0) (-4.242, -4.242, 0.0) (-3e-6) 3e-3 true;
  particle (2.5, 2.5, 5.0) (4.242, -4.242, 0.0) (-3e-6) 3e-3 true;
  particle (7.5, 2.5, 5.0) (4.242, 4.242, 0.0) (-3e-6) 3e-3 true;
  particle (7.0, 5.0, 7.0) (4.242, 0.0, -4.242) 4e-6 4e-3 true;
  particle (3.0, 5.0, 3.0) (-4.242, 0.0, 4.242) 4e-6 4e-3 true
]%float.

Definition Dipole_plus : Charge float :=
  (particle (4.0, 5.0, 5.0) (0.0, 0.0, 0.0) 5e-6 1e-2 true)%float.
Definition Dipole_minus : Charge float :=
  (particle (6.0, 5.0, 5.0) (0.0, 0.0, 0.0) (-5e-6) 1e-2 true)%float.
Definition Dipole : list (Charge float) := [Dipole_plus; Dipole_minus].

Definition Stable_Binary : list (Charge float) := [
  particle (4.5, 5.0, 5.0) (0.0, 5.0, 0.0) 4e-6 1e-2 true;
  particle (5.5, 5.0, 5.0) (0.0, -5.0, 0.0) (-4e-6) 1e-2 true
]%float.

(** The color arrays of these presets. *)
Definition Orbital_colors : list (Color float) := [
  mkColor 1.0 0.8 0.0 0.9;
  mkColor 0.0 0.5 1.0 0.8;
  mkColor 0.0 0.5 1.0 0.8;
  mkColor 1.0 0.0 0.0 0.8;
  mkColor 0.0 1.0 0.0 0.8;
  mkColor 0.5 0.0 0.5 0.8;
  mkColor 1.0 0.5 0.0 0.8;
  mkColor 0.0 1.0 1.0 0.8;
  mkColor 0.0 1.0 1.0 0.8
]%float.

Definition Dipole_colors : list (Color float) := [
  mkColor 1.0 0.0 0.0 0.9;
  mkColor 0.0 0.0 1.0 0.9
]%float.

Definition Stable_Binary_colors : list (Color float) := [
  mkColor 1.0 0.3 0.3 1.0;
  mkColor 0.3 0.3 1.0 1.0
]%float.

(** A catalog made of these three presets, and a store that holds their
    arrays. *)
Definition literal_presets : list Preset := [
  mkPreset "Orbital" 0 0;
  mkPreset "Dipole" 1 1;
  mkPreset "Stable Binary" 2 2
].

Definition literal_heap : Heap float :=
  mkHeap (list_to_map [(0, Orbital); (1, Dipole); (2, Stable_Binary)])
         (list_to_map [(0, Orbital_colors); (1, Dipole_colors);
                       (2, Stable_Binary_colors)]).

(** A simulation object before its first load, already set running. *)
Definition fresh_sim : ChargeSimulation float :=
  mkSim default_dt literal_presets 0 0 0 [] true.





(** An array with an active and an inactive particle. *)
Definition gone_particle : Charge float :=
  (particle (100000.5, 5.0, 5.0) (10.0, 0.0, 0.0) (-5e-6) 1e-2 false)%float.

Definition half_gone_heap : Heap float :=
  mkHeap {[ 0 := [Dipole_plus; gone_particle] ]} ∅.

Definition half_gone_sim : ChargeSimulation float :=
  mkSim default_dt [] 0 0 0 [[]; []] true.

(** A catalog whose only preset has no particle. *)
Definition no_particles_presets : list Preset := [mkPreset "Empty" 0 0].

Definition no_particles_heap : Heap float := mkHeap {[ 0 := [] ]} {[ 0 := [] ]}.

Definition no_particles_sim : ChargeSimulation float :=
  mkSim default_dt no_particles_presets 0 0 0 [] false.

(** * Specification

    The notions in which the properties of the program are stated. *)

Section Specification.
Context {F : Type} `{Scalar F}.
Implicit Types (cs : list (Charge F)) (forces : list (Vec3 F)).
Implicit Types (c ci cj ck : Charge F) (f p : Vec3 F) (b : F * F).
Implicit Types (self : ChargeSimulation F) (h : Heap F).
Implicit Types (trs : list (list (Vec3 F))).

(** ** Forces in closed form *)

(** What the pair [(i, k)], [i < k], does to [forces[k]], and what the pair
    [(k, j)], [k < j], does to [forces[k]]. *)
Definition received cs ck f (i : nat) : Vec3 F :=
  match cs !! i with
  | Some ci => if active ci then vsub f (pair_term ci ck) else f
  | None => f
  end.

Definition exerted cs ck f (j : nat) : Vec3 F :=
  match cs !! j with
  | Some cj => if active cj then vadd f (pair_term ck cj) else f
  | None => f
  end.

(** The net force on particle [k] in closed form: the terms of the pairs
    [(0, k)], ..., [(k - 1, k)] subtracted in this order from zero, then the
    terms of the pairs [(k, k + 1)], ..., [(k, n - 1)] added in this order;
    pairs with an inactive member are skipped. *)
Definition force_on cs (k : nat) : Vec3 F :=
  match cs !! k with
  | Some ck =>
      if active ck
      then foldl (exerted cs ck) (foldl (received cs ck) zero3 (seq 0 k))
                 (seq (S k) (length cs - S k))
      else zero3
  | None => zero3
  end.

(** [forces[k]] after the outer iterations [0, ..., t - 1]. *)
Definition partial_force cs (k t : nat) : Vec3 F :=
  match cs !! k with
  | Some ck =>
      if active ck
      then if decide (k < t)
           then foldl (exerted cs ck) (foldl (received cs ck) zero3 (seq 0 k))
                      (seq (S k) (length cs - S k))
           else foldl (received cs ck) zero3 (seq 0 t)
      else zero3
  | None => zero3
  end.

(** [-v], formed as the code forms the force on the second particle of a
    pair: subtracted from zero. *)
Definition vneg (v : Vec3 F) : Vec3 F := vsub zero3 v.

(** ** Steps of the integrator *)

(** The velocity and the position the semi-implicit Euler step assigns. *)
Definition new_vel c f (dt : F) : Vec3 F :=
  vadd (vel c) (vmuls (vdivs f (m c)) dt).

Definition new_pos c f (dt : F) : Vec3 F :=
  vadd (pos c) (vmuls (new_vel c f dt) dt).

(** Some coordinate of [p] is below [boundary[0]] or above [boundary[1]]. *)
Definition outside b p : bool := any_lt p (fst b) || any_gt p (snd b).

Definition coords p : list F := [c0 p; c1 p; c2 p].

(** What one call of [update_physics] makes of particle [i]. *)
Definition advance forces (dt : F) (b : F * F) (i : nat) c : Charge F :=
  match forces !! i with
  | Some f => if active c then euler_step c f dt b else c
  | None => c
  end.

(** ** Frames, runs and loads *)

(** The charge array after one advanced frame, and the trajectories after
    the positions of [cs] are recorded. *)
Definition tick_array cs (dt : F) : list (Charge F) :=
  imap (advance (compute_forces cs) dt boundary) cs.

Definition recorded cs trs : list (list (Vec3 F)) :=
  imap (λ i t, match cs !! i with Some c => t ++ [pos c] | None => t end) trs.

(** The event advances the simulation: a frame while [running]. *)
Definition advances (e : Event) (r : bool) : bool :=
  match e with Frame => r | _ => false end.

Definition running_after (e : Event) (r : bool) : bool :=
  match e with TogglePause => negb r | _ => r end.

(** What loading the preset at index [i] makes of the simulation and of
    the store, when the preset holds the charges [cs] and the colors [cols]:
    both arrays are copied to new locations. *)
Definition loaded_sim self (i : Z) h cs : ChargeSimulation F :=
  mkSim (dt self) (presets self) i
        (fresh (dom (charge_arrays h))) (fresh (dom (color_arrays h)))
        (replicate (length cs) []) (running self).

Definition loaded_heap h cs (cols : list (Color F)) : Heap F :=
  mkHeap (<[fresh (dom (charge_arrays h)) := cs]> (charge_arrays h))
         (<[fresh (dom (color_arrays h)) := cols]> (color_arrays h)).


(** ** Runs as functions of the charge array *)

(** What an event other than a reset makes of the simulation object and of
    its charge array [cs]. *)
Definition after_event self cs (e : Event)
    : ChargeSimulation F * list (Charge F) :=
  match e with
  | Frame =>
      if running self
      then (mkSim (dt self) (presets self) (current_preset self)
                  (charges self) (colors self)
                  (recorded (tick_array cs (dt self)) (trajectories self))
                  (running self),
            tick_array cs (dt self))
      else (self, cs)
  | TogglePause => (set_running self (negb (running self)), cs)
  | UpdateDt value => (set_dt self (of_int value / of_int 2000)%S, cs)
  | LoadPreset _ | ResetButton => (self, cs)
  end.

Fixpoint after_run self cs (es : list Event)
    : ChargeSimulation F * list (Charge F) :=
  match es with
  | [] => (self, cs)
  | e :: es => after_run (after_event self cs e).1 (after_event self cs e).2 es
  end.

(** The store after the charge array of [self] is overwritten by [cs]. *)
Definition stored self h cs : Heap F :=
  mkHeap (<[charges self := cs]> (charge_arrays h)) (color_arrays h).

(** Every preset of the catalog has its two arrays in the store, with one
    color per particle, and its charge array is not empty. *)
Definition catalog_ok (ps : list Preset) h : Prop :=
  ∀ pr : Preset, pr ∈ ps →
    ∃ cs (cols : list (Color F)),
      charge_arrays h !! preset_charges pr = Some cs
      ∧ color_arrays h !! preset_colors pr = Some cols
      ∧ cs ≠ [] ∧ length cols = length cs.

(** A valid index of a Python list of length [n]. *)
Definition index_ok (n : nat) (i : Z) : Prop :=
  (- Z.of_nat n ≤ i < Z.of_nat n)%Z.

(** The event is one the catalog of [n] presets and the widgets allow: a
    load names a preset of the catalog, and the value of the slider's signal
    is a C [int]. *)
Definition event_ok (n : nat) (e : Event) : Prop :=
  match e with
  | LoadPreset i => index_ok n i
  | UpdateDt value => (- 2 ^ 31 ≤ value < 2 ^ 31)%Z
  | _ => True
  end.

(** What holds of a simulation [self] and a store [h'] that were reached
    from the catalog [ps] and the store [h] the catalog was built in: the
    simulation has the catalog and a valid current index, its charge array is
    none of the arrays of [h], these arrays and the color arrays of [h] are
    as they were, and the charge array is not empty and has one trajectory
    and one color per particle. *)
Definition reached (ps : list Preset) h self h' : Prop :=
  presets self = ps
  ∧ is_Some (getitem ps (current_preset self))
  ∧ (charges self ∉ dom (charge_arrays h))
  ∧ (∀ l, l ∈ dom (charge_arrays h) →
          charge_arrays h' !! l = charge_arrays h !! l)
  ∧ (∀ l, l ∈ dom (color_arrays h) →
          color_arrays h' !! l = color_arrays h !! l)
  ∧ ∃ cs, charge_arrays h' !! charges self = Some cs ∧ cs ≠ []
          ∧ length (trajectories self) = length cs
          ∧ ∃ cols : list (Color F),
              color_arrays h' !! colors self = Some cols
              ∧ length cols = length cs.

(** Every trajectory that has an entry ends with the position its particle
    has in [cs]. *)
Definition tracks cs trs : Prop :=
  ∀ i t c, trs !! i = Some t → cs !! i = Some c → t ≠ [] →
           last t = Some (pos c).

(** Two particles agree on what [compute_forces] reads: position, charge
    and flag. *)
Definition same_source c c' : Prop :=
  pos c = pos c' ∧ q c = q c' ∧ active c = active c'.

End Specification.

(** ** Laws of the arithmetic *)

(** The facts about the scalar operations that the properties rely on,
    with the notions they are stated in: numerical equality [feq], negation
    [fopp], the non-strict order [fle] and finiteness [ffinite].  They hold of
    binary64, where [feq] identifies the two zeros, and of the reals, where
    [feq] is equality. *)
Class ScalarLaws (F : Type) `{Scalar F} := {
  feq : F → F → Prop;             (* [x == y], or both not-a-number *)
  fopp : F → F;                   (* [-x] *)
  fle : F → F → bool;             (* [x <= y] *)
  ffinite : F → Prop;             (* neither infinite nor not-a-number *)
  fsub_zero_twice : ∀ x : F, (fzero - (fzero - x))%S = (fzero + x)%S;
  fopp_sub_zero : ∀ x : F, feq (fzero + x)%S (fopp (fzero - x)%S);
  flt_irrefl : ∀ x : F, (x <? x)%S = false;
  fle_not_gt : ∀ x y : F, fle x y = true → (y <? x)%S = false;
  fdiv_zero_l : ∀ x : F, (fzero <? x)%S = true → (fzero / x)%S = fzero;
  fmul_zero_l : ∀ x : F, ffinite x → feq (fzero * x)%S fzero;
  fadd_zero_r : ∀ v z : F, feq z fzero → feq (v + z)%S v;
  fmul_feq : ∀ a b x : F, feq a b → feq (a * x)%S (b * x)%S;
  fadd_feq : ∀ p a b : F, feq a b → feq (p + a)%S (p + b)%S;
}.

Section LawfulSpecification.
Context {F : Type} `{ScalarLaws F}.

(** Numerical equality of vectors, and [-v]. *)
Definition veq (a b : Vec3 F) : Prop :=
  feq (c0 a) (c0 b) ∧ feq (c1 a) (c1 b) ∧ feq (c2 a) (c2 b).

Definition vopp (v : Vec3 F) : Vec3 F :=
  mkVec3 (fopp (c0 v)) (fopp (c1 v)) (fopp (c2 v)).

End LawfulSpecification.

(** ** Comparisons used in the statements *)

Definition Rleb (x y : R) : bool := if Rle_dec x y then true else false.

(** Numerical equality in binary64: the same value, or two values that
    [==] holds of (which then are the two zeros). *)
Definition float_eq (a b : float) : Prop := a = b ∨ PrimFloat.eqb a b = true.

(** The same on the specification of binary64. *)
Definition sf_zero (x : spec_float) : Prop := ∃ s, x = S754_zero s.
Definition sf_eq (x y : spec_float) : Prop := x = y ∨ (sf_zero x ∧ sf_zero y).

(** The sign of a binary64 value: [x] is not a number, or it is a zero, a
    finite number or an infinity whose sign bit is [s]. *)
Definition sf_signed (s : bool) (x : spec_float) : Prop :=
  match x with
  | S754_zero s' | S754_infinity s' | S754_finite s' _ _ => s' = s
  | S754_nan => True
  end.

(** Two charges of the same sign, and two of opposite signs. *)
Definition like_signs (a b : float) : bool :=
  PrimFloat.ltb 0 a && PrimFloat.ltb 0 b
  || PrimFloat.ltb a 0 && PrimFloat.ltb b 0.

Definition opposite_signs (a b : float) : bool :=
  PrimFloat.ltb 0 a && PrimFloat.ltb b 0
  || PrimFloat.ltb a 0 && PrimFloat.ltb 0 b.

(** [lo <= x <= hi] in binary64. *)
Definition between (lo x hi : float) : bool :=
  PrimFloat.leb lo x && PrimFloat.leb x hi.

(** The first step as the specification describes it, for the force [f] on
    the first particle and the particle [c] it becomes: a force of about
    0.02809 along +x, a velocity of about 2.809 along +x and an x-position of
    about 4.01405. *)
Definition first_step_as_specified (f : Vec3 float) (c : Charge float) : bool :=
  between 0.0280 (c0 f) 0.0282
  && between 2.80 (c0 (vel c)) 2.82
  && between 4.0140 (c0 (pos c)) 4.0141.

(** ** Particles for the boundary and for the lone-particle property *)

(** A binary64 particle placed just inside the upper bound and moving
    outwards, and one that arrives exactly on the bound. *)
Definition leaving_particle : Charge float :=
  (particle (99999.999, 5.0, 5.0) (10.0, 0.0, 0.0) 1e-6 1e-3 true)%float.

Definition arriving_particle : Charge float :=
  (particle (99999.0, 5.0, 5.0) (200.0, 0.0, 0.0) 1e-6 1e-3 true)%float.

(** A lone particle whose velocity has a negative zero. *)
Definition lone_particle : Charge float :=
  (particle (1.0, 2.0, 3.0) (-0.0, 1.5, -2.0) 1e-6 1e-3 true)%float.

(** A particle at the place of the first charge of the dipole, with the
    opposite charge. *)
Definition twin_particle : Charge float :=
  (particle (4.0, 5.0, 5.0) (1.0, 0.0, 0.0) (-5e-6) 1e-2 true)%float.

(** * Properties *)

(** ** Loops over [range] *)

Lemma foldl_invariant {A B} (P : A → Prop) (f : A → B → A) (xs : list B) (a : A) :
  P a → (∀ a x, P a → P (f a x)) → P (foldl f a xs).
Proof.
  intros Ha Hf. revert a Ha.
  induction xs as [|x xs IH]; intros a Ha; simpl; [done|].
  apply IH, Hf, Ha.
Qed.

Lemma foldl_seq_S {A} (f : A → nat → A) (a : A) (start len : nat) :
  foldl f a (seq start (S len)) = f (foldl f a (seq start len)) (start + len).
Proof. by rewrite seq_S, foldl_app. Qed.

Lemma foldl_seq_id {A} (g : A → nat → A) (a : A) (start len : nat) :
  (∀ b x, start ≤ x < start + len → g b x = b) →
  foldl g a (seq start len) = a.
Proof.
  intros Hg. induction len as [|len IH]; [done|].
  rewrite foldl_seq_S, Hg by lia. apply IH. intros b x Hx. apply Hg. lia.
Qed.

Lemma foldl_seq_single {A} (g : A → nat → A) (a : A) (start len j : nat) :
  start ≤ j < start + len →
  (∀ b x, start ≤ x < start + len → x ≠ j → g b x = b) →
  foldl g a (seq start len) = g a j.
Proof.
  intros Hj Hg. induction len as [|len IH]; [lia|].
  rewrite foldl_seq_S. destruct (decide (j = start + len)) as [->|Hne].
  - f_equal. apply foldl_seq_id. intros b x Hx. apply Hg; lia.
  - rewrite Hg by lia. apply IH; [lia|]. intros b x Hx Hxj. apply Hg; lia.
Qed.

Lemma foldl_seq_ext {A} (g g' : A → nat → A) (a : A) (start len : nat) :
  (∀ b x, start ≤ x < start + len → g b x = g' b x) →
  foldl g a (seq start len) = foldl g' a (seq start len).
Proof.
  intros Hg. induction len as [|len IH]; [done|].
  rewrite !foldl_seq_S, IH, Hg; [done|lia|]. intros b x Hx. apply Hg. lia.
Qed.

(** A loop [for i in range(len(l))] whose body replaces [l[i]] by
    [g i l[i]] and may raise: it raises nowhere and yields [imap g l] when the
    body succeeds at every index of [l]. *)
Lemma foldl_in_place {A} (step : option (list A) → nat → option (list A))
    (g : nat → A → A) (l : list A) :
  (∀ l' i x, i < length l → length l' = length l → l' !! i = Some x →
             step (Some l') i = Some (<[i := g i x]> l')) →
  foldl step (Some l) (seq 0 (length l)) = Some (imap g l).
Proof.
  intros Hstep.
  assert (∀ t, t ≤ length l →
    foldl step (Some l) (seq 0 t) = Some (take t (imap g l) ++ drop t l)) as Hinv.
  { induction t as [|t IH]; intros Ht; [done|].
    rewrite foldl_seq_S, IH by lia. change (0 + t) with t.
    destruct (lookup_lt_is_Some_2 l t) as [x Hx]; [lia|].
    assert (length (take t (imap g l)) = t) as Hlen
      by (rewrite length_take, length_imap; lia).
    rewrite (Hstep _ _ x); [|lia| |].
    - f_equal. rewrite insert_app_r_alt by lia. rewrite Hlen, Nat.sub_diag.
      rewrite (drop_S l x t) by done. simpl.
      rewrite (take_S_r _ _ (g t x)); [by rewrite <-app_assoc|].
      by rewrite list_lookup_imap, Hx.
    - rewrite length_app, Hlen, length_drop. lia.
    - rewrite lookup_app_r by lia. rewrite Hlen, Nat.sub_diag, lookup_drop.
      by rewrite Nat.add_0_r. }
  rewrite Hinv by done. rewrite drop_all, app_nil_r.
  by rewrite take_ge by (rewrite length_imap; lia).
Qed.

(** ** The force engine *)

Section Forces.
Context {F : Type} `{Scalar F}.
Implicit Types (cs : list (Charge F)) (forces : list (Vec3 F)).
Implicit Types (ci cj ck : Charge F) (f : Vec3 F).

Lemma length_accumulate i j (t : Vec3 F) forces :
  length (accumulate i j t forces) = length forces.
Proof. unfold accumulate. by rewrite !length_alter. Qed.

Lemma length_inner_step cs i ci forces j :
  length (inner_step cs i ci forces j) = length forces.
Proof.
  unfold inner_step. destruct (cs !! j) as [cj|]; [|done].
  destruct (negb (active cj)); [done|]. apply length_accumulate.
Qed.

Lemma length_outer_step cs forces i :
  length (outer_step cs forces i) = length forces.
Proof.
  unfold outer_step. destruct (cs !! i) as [ci|]; [|done].
  destruct (negb (active ci)); [done|].
  apply (foldl_invariant (λ l, length l = length forces)); [done|].
  intros a x Ha. by rewrite length_inner_step.
Qed.

Lemma length_compute_forces cs : length (compute_forces cs) = length cs.
Proof.
  unfold compute_forces.
  apply (foldl_invariant (λ l, length l = length cs)).
  - apply length_replicate.
  - intros a x Ha. by rewrite length_outer_step.
Qed.

Lemma lookup_accumulate i j (t : Vec3 F) forces k :
  i ≠ j →
  accumulate i j t forces !! k =
    if decide (k = j) then (λ f, vsub f t) <$> forces !! k
    else if decide (k = i) then (λ f, vadd f t) <$> forces !! k
    else forces !! k.
Proof.
  intros Hij. unfold accumulate.
  destruct (decide (k = j)) as [->|Hkj].
  - by rewrite list_lookup_alter_eq, list_lookup_alter_ne.
  - rewrite list_lookup_alter_ne by done.
    destruct (decide (k = i)) as [->|Hki].
    + by rewrite list_lookup_alter_eq.
    + by rewrite list_lookup_alter_ne.
Qed.

(** The inner loop of particle [i] over [j = a, ..., a + len - 1], [i < a]. *)
Lemma inner_loop_self cs i ci forces a len f :
  i < a → forces !! i = Some f →
  foldl (inner_step cs i ci) forces (seq a len) !! i =
    Some (foldl (exerted cs ci) f (seq a len)).
Proof.
  intros Hia Hf. induction len as [|len IH]; [done|].
  rewrite !foldl_seq_S. unfold inner_step at 1. unfold exerted at 1.
  destruct (cs !! (a + len)) as [cj|]; [|done].
  destruct (active cj); simpl; [|done].
  rewrite lookup_accumulate by lia.
  destruct (decide (i = a + len)); [lia|].
  destruct (decide (i = i)); [|done].
  by rewrite IH.
Qed.

Lemma inner_loop_other cs i ci forces a len k ck f :
  i < a → k ≠ i → cs !! k = Some ck → forces !! k = Some f →
  foldl (inner_step cs i ci) forces (seq a len) !! k =
    Some (if decide (a ≤ k < a + len)
          then if active ck then vsub f (pair_term ci ck) else f
          else f).
Proof.
  intros Hia Hki Hck Hf. induction len as [|len IH].
  - simpl. destruct (decide _); [lia|done].
  - rewrite foldl_seq_S. unfold inner_step at 1.
    destruct (decide (k = a + len)) as [->|Hne].
    + rewrite Hck. destruct (decide (a ≤ a + len < a + len)); [lia|].
      destruct (decide (a ≤ a + len < a + S len)); [|lia].
      destruct (active ck); simpl; [|done].
      rewrite lookup_accumulate by lia.
      destruct (decide (a + len = a + len)); [|done].
      by rewrite IH.
    + assert (foldl (inner_step cs i ci) forces (seq a len) !! k =
              Some (if decide (a ≤ k < a + S len)
                    then if active ck then vsub f (pair_term ci ck) else f
                    else f)) as IH'.
      { rewrite IH. do 2 destruct (decide _); try done; lia. }
      destruct (cs !! (a + len)) as [cj|]; [|done].
      destruct (negb (active cj)); [done|].
      rewrite lookup_accumulate by lia.
      destruct (decide (k = a + len)); [done|].
      by destruct (decide (k = i)).
Qed.

Lemma outer_loop cs t :
  t ≤ length cs →
  ∀ k, k < length cs →
    foldl (outer_step cs) (replicate (length cs) zero3) (seq 0 t) !! k =
      Some (partial_force cs k t).
Proof.
  induction t as [|t IH]; intros Ht k Hk.
  - simpl. rewrite lookup_replicate_2 by done. unfold partial_force.
    destruct (cs !! k) as [ck|]; [|done].
    destruct (active ck); [|done]. destruct (decide (k < 0)); [lia|done].
  - rewrite foldl_seq_S. simpl.
    set (fs := foldl (outer_step cs) _ (seq 0 t)) in *.
    destruct (lookup_lt_is_Some_2 cs t) as [ct Hct]; [lia|].
    destruct (lookup_lt_is_Some_2 cs k) as [ck Hck]; [lia|].
    unfold outer_step. rewrite Hct.
    destruct (active ct) eqn:Hact; simpl.
    + destruct (decide (k = t)) as [->|Hkt].
      * rewrite (inner_loop_self _ _ _ _ _ _ (partial_force cs t t));
          [|lia|apply IH; lia].
        unfold partial_force. rewrite Hct, Hact.
        destruct (decide (t < t)); [lia|]. destruct (decide (t < S t)); [done|lia].
      * rewrite (inner_loop_other _ _ _ _ _ _ _ ck (partial_force cs k t));
          [|lia|done|done|apply IH; lia].
        unfold partial_force. rewrite Hck.
        destruct (active ck) eqn:Hk'; [|by destruct (decide _)].
        destruct (decide (S t ≤ k < S t + (length cs - S t))) as [Hin|Hout].
        -- destruct (decide (k < t)); [lia|]. destruct (decide (k < S t)); [lia|].
           rewrite foldl_seq_S. change (0 + t) with t.
           unfold received at 2. by rewrite Hct, Hact.
        -- destruct (decide (k < t)); destruct (decide (k < S t)); try done; lia.
    + rewrite IH by lia. unfold partial_force. rewrite Hck.
      destruct (active ck) eqn:Hk'; [|done].
      destruct (decide (k < t)); destruct (decide (k < S t)); try done; try lia.
      * assert (k = t) as -> by lia. congruence.
      * rewrite foldl_seq_S. change (0 + t) with t.
        unfold received at 2. by rewrite Hct, Hact.
Qed.

(** [compute_forces] computes the closed form at every index. *)
Lemma compute_forces_lookup cs k :
  k < length cs → compute_forces cs !! k = Some (force_on cs k).
Proof.
  intros Hk. unfold compute_forces. rewrite outer_loop by lia.
  unfold partial_force, force_on.
  destruct (cs !! k) as [ck|]; [|done]. destruct (active ck); [|done].
  destruct (decide (k < length cs)); [done|lia].
Qed.

(** The whole result at once. *)
Lemma compute_forces_eq cs :
  compute_forces cs = imap (λ k _, force_on cs k) cs.
Proof.
  apply list_eq. intros k. rewrite list_lookup_imap.
  destruct (cs !! k) as [ck|] eqn:Hk; simpl.
  - apply compute_forces_lookup. by apply lookup_lt_Some in Hk.
  - apply lookup_ge_None. rewrite length_compute_forces.
    by apply lookup_ge_None in Hk.
Qed.

End Forces.

(** ** The integrator *)

Section Integrator.
Context {F : Type} `{Scalar F}.
Implicit Types (cs : list (Charge F)) (forces : list (Vec3 F)) (c : Charge F).

(** With one force per particle [update_physics] raises nowhere and
    updates every particle independently of the others. *)
Lemma update_physics_imap cs forces dt b :
  length forces = length cs →
  update_physics cs forces dt b = Some (imap (advance forces dt b) cs).
Proof.
  intros Hlen. unfold update_physics. apply foldl_in_place.
  intros l' i c Hi Hl' Hc. unfold physics_step, advance. simpl. rewrite Hc. simpl.
  destruct (lookup_lt_is_Some_2 forces i) as [f Hf]; [lia|]. rewrite Hf.
  destruct (active c); simpl; [done|]. by rewrite list_insert_id.
Qed.

Lemma update_physics_length cs forces dt b cs' :
  update_physics cs forces dt b = Some cs' → length cs' = length cs.
Proof.
  unfold update_physics.
  assert (∀ xs o, (∀ l, o = Some l → length l = length cs) →
    ∀ l, foldl (physics_step forces dt b) o xs = Some l → length l = length cs)
    as Hgen.
  { induction xs as [|x xs IH]; intros o Ho l; simpl; [by apply Ho|].
    apply IH. intros l'. unfold physics_step.
    destruct o as [l0|]; simpl; [|done].
    destruct (l0 !! x) as [c|]; simpl; [|done].
    destruct (active c); [|intros [= <-]; by apply Ho].
    destruct (forces !! x); simpl; [|done].
    intros [= <-]. rewrite length_insert. by apply Ho. }
  intros Hup. eapply Hgen; [|exact Hup]. by intros l [= <-].
Qed.

(** [record_positions] appends to every trajectory when there is one
    trajectory per particle. *)
Lemma record_positions_imap cs (trs : list (list (Vec3 F))) :
  length trs = length cs →
  record_positions cs trs =
    Some (imap (λ i t, match cs !! i with
                       | Some c => t ++ [pos c]
                       | None => t
                       end) trs).
Proof.
  intros Hlen. unfold record_positions. rewrite <-Hlen. apply foldl_in_place.
  intros l' i t Hi Hl' Ht. unfold record_step. simpl. rewrite Ht. simpl.
  destruct (lookup_lt_is_Some_2 cs i) as [c Hc]; [lia|]. by rewrite Hc.
Qed.

End Integrator.

(** ** The laws in binary64 and over the reals *)

Lemma SFcompare_antisym (a b : spec_float) :
  SFcompare b a = CompOpp <$> SFcompare a b.
Proof.
  destruct a as [sa|sa| |sa ma ea], b as [sb|sb| |sb mb eb];
    try destruct sa; try destruct sb; try reflexivity; simpl; f_equal.
  - rewrite (Z.compare_antisym ea eb).
    destruct (ea ?= eb)%Z; simpl; try done.
    f_equal. symmetry. apply (Pos.compare_cont_antisym ma mb Eq).
  - rewrite (Z.compare_antisym ea eb).
    destruct (ea ?= eb)%Z; simpl; try done.
    symmetry. apply (Pos.compare_cont_antisym ma mb Eq).
Qed.

Lemma float_ltb_irrefl (x : float) : PrimFloat.ltb x x = false.
Proof.
  rewrite ltb_spec. unfold SFltb.
  pose proof (SFcompare_antisym (Prim2SF x) (Prim2SF x)) as Hs.
  destruct (SFcompare (Prim2SF x) (Prim2SF x)) as [[]|]; done.
Qed.

Lemma float_leb_not_gt (x y : float) :
  PrimFloat.leb x y = true → PrimFloat.ltb y x = false.
Proof.
  rewrite leb_spec, ltb_spec. unfold SFleb, SFltb.
  rewrite (SFcompare_antisym (Prim2SF x) (Prim2SF y)).
  destruct (SFcompare (Prim2SF x) (Prim2SF y)) as [[]|]; done.
Qed.

Lemma float_sub_zero_twice (x : float) : (0 - (0 - x))%float = (0 + x)%float.
Proof.
  apply Prim2SF_inj. rewrite !sub_spec, add_spec.
  change (Prim2SF 0) with (S754_zero false).
  destruct (Prim2SF x) as [s|s| |s mx ex]; try destruct s; reflexivity.
Qed.

Lemma SFcompare_Eq (x y : spec_float) : SFcompare x y = Some Eq → sf_eq x y.
Proof.
  destruct x as [sx|sx| |sx mx ex], y as [sy|sy| |sy my ey]; simpl;
    try destruct sx; try destruct sy; try discriminate;
    try (intros _; by left); try (intros _; right; split; eexists; reflexivity).
  - destruct (Z.compare_spec ex ey) as [->| |]; try discriminate.
    intros [= Hm]. apply (f_equal CompOpp) in Hm. rewrite CompOpp_involutive in Hm.
    simpl in Hm. apply Pos.compare_eq in Hm as ->. by left.
  - destruct (Z.compare_spec ex ey) as [->| |]; try discriminate.
    intros [= Hm]. apply Pos.compare_eq in Hm as ->. by left.
Qed.

Lemma float_eq_spec (a b : float) : float_eq a b ↔ sf_eq (Prim2SF a) (Prim2SF b).
Proof.
  unfold float_eq. rewrite FloatAxioms.eqb_spec. unfold SFeqb. split.
  - intros [->|Heq]; [by left|].
    destruct (SFcompare (Prim2SF a) (Prim2SF b)) as [[]|] eqn:Hc; try done.
    by apply SFcompare_Eq.
  - intros [Heq|[[s ->] [s' ->]]]; [left; by apply Prim2SF_inj|by right].
Qed.

Lemma Prim2SF_zero : Prim2SF 0 = S754_zero false.
Proof. reflexivity. Qed.

Lemma float_finite_spec (x : float) :
  is_finite x = true → sf_zero (Prim2SF x) ∨ ∃ s m e, Prim2SF x = S754_finite s m e.
Proof.
  unfold is_finite. intros Hfin%negb_true_iff%orb_false_iff. destruct Hfin as [Hnan Hinf].
  unfold Prim2SF. rewrite Hnan, Hinf.
  destruct (is_zero x); [left; by eexists|].
  destruct (Z.frexp x) as [r e]. destruct (shr_fexp _ _ _ _ _) as [shr e'].
  destruct (shr_m shr); [left; by eexists|right; by eexists _, _, _|left; by eexists].
Qed.

Lemma float_fopp_sub_zero (x : float) : float_eq (0 + x) (- (0 - x)).
Proof.
  apply float_eq_spec. rewrite add_spec, opp_spec, sub_spec, Prim2SF_zero.
  destruct (Prim2SF x) as [s|s| |s m e]; try destruct s;
    try (by left); right; split; eexists; reflexivity.
Qed.

Lemma float_div_zero_l (x : float) : PrimFloat.ltb 0 x = true → (0 / x = 0)%float.
Proof.
  rewrite ltb_spec, Prim2SF_zero. intros Hlt.
  apply Prim2SF_inj. rewrite div_spec, Prim2SF_zero.
  destruct (Prim2SF x) as [s|s| |s m e]; try destruct s; try discriminate; reflexivity.
Qed.

Lemma float_mul_zero_l (x : float) : is_finite x = true → float_eq (0 * x) 0.
Proof.
  intros Hfin%float_finite_spec. apply float_eq_spec.
  rewrite mul_spec, Prim2SF_zero.
  destruct Hfin as [[s ->]|(s & m & e & ->)]; right; split; eexists; reflexivity.
Qed.

Lemma float_add_zero_r (v z : float) : float_eq z 0 → float_eq (v + z) v.
Proof.
  rewrite !float_eq_spec, add_spec, Prim2SF_zero.
  intros [->|[[s ->] _]].
  - destruct (Prim2SF v) as [sv|sv| |sv mv ev]; try destruct sv;
      try (by left); right; split; eexists; reflexivity.
  - destruct (Prim2SF v) as [sv|sv| |sv mv ev]; try destruct sv; try destruct s;
      try (by left); right; split; eexists; reflexivity.
Qed.

Lemma float_mul_eq (a b x : float) : float_eq a b → float_eq (a * x) (b * x).
Proof.
  rewrite !float_eq_spec, !mul_spec.
  intros [->|[[s ->] [s' ->]]]; [by left|].
  destruct (Prim2SF x) as [sx|sx| |sx mx ex];
    try (by left); right; split; eexists; reflexivity.
Qed.

Lemma float_add_eq (p a b : float) : float_eq a b → float_eq (p + a) (p + b).
Proof.
  rewrite !float_eq_spec, !add_spec.
  intros [->|[[s ->] [s' ->]]]; [by left|].
  destruct (Prim2SF p) as [sp|sp| |sp mp ep]; try (by left).
  destruct sp, s, s'; try (by left); right; split; eexists; reflexivity.
Qed.

#[export] Instance float64_laws : ScalarLaws float := {
  feq := float_eq;
  fopp := PrimFloat.opp;
  fle := PrimFloat.leb;
  ffinite := λ x, is_finite x = true;
  fsub_zero_twice := float_sub_zero_twice;
  fopp_sub_zero := float_fopp_sub_zero;
  flt_irrefl := float_ltb_irrefl;
  fle_not_gt := float_leb_not_gt;
  fdiv_zero_l := float_div_zero_l;
  fmul_zero_l := float_mul_zero_l;
  fadd_zero_r := float_add_zero_r;
  fmul_feq := float_mul_eq;
  fadd_feq := float_add_eq;
}.

Lemma Rltb_true (x y : R) : Rltb x y = true ↔ (x < y)%R.
Proof. unfold Rltb. destruct (Rlt_dec x y); split; auto; discriminate. Qed.

Lemma Rltb_false (x y : R) : Rltb x y = false ↔ (y <= x)%R.
Proof.
  unfold Rltb. destruct (Rlt_dec x y); split; try done; try lra.
Qed.

Lemma Rleb_true (x y : R) : Rleb x y = true ↔ (x <= y)%R.
Proof. unfold Rleb. destruct (Rle_dec x y); split; auto; discriminate. Qed.

#[export] Instance real_laws : ScalarLaws R.
Proof.
  refine {| feq := eq; fopp := Ropp; fle := Rleb; ffinite := λ _, True |};
    simpl.
  - intros x. lra.
  - intros x. lra.
  - intros x. apply Rltb_false. lra.
  - intros x y Hxy%Rleb_true. apply Rltb_false. lra.
  - intros x Hx%Rltb_true. unfold Rdiv. lra.
  - intros x _. lra.
  - intros v z ->. lra.
  - by intros a b x ->.
  - by intros p a b ->.
Defined.

(** Over the reals numerical equality of vectors is equality, and [vneg] is
    the negation. *)
Lemma real_veq (a b : Vec3 R) : veq a b ↔ a = b.
Proof.
  unfold veq. simpl. destruct a, b. simpl. split.
  - by intros (-> & -> & ->).
  - by intros [= -> -> ->].
Qed.

Lemma real_vneg (v : Vec3 R) : vneg v = vopp v.
Proof. unfold vneg, vopp, vsub, zero3. simpl. f_equal; lra. Qed.

(** ** Properties of the force engine *)

Section ForceProperties.
Context {F : Type} `{Scalar F}.
Implicit Types (cs : list (Charge F)) (ci cj ck : Charge F) (f : Vec3 F).

Lemma force_on_inactive cs k ck :
  cs !! k = Some ck → active ck = false → force_on cs k = zero3.
Proof. intros Hk Hact. unfold force_on. by rewrite Hk, Hact. Qed.

(** The data of an inactive particle enter no other particle's force. *)
Lemma force_on_insert_inactive cs i ci ci' k :
  cs !! i = Some ci → active ci = false → active ci' = false → k ≠ i →
  force_on (<[i := ci']> cs) k = force_on cs k.
Proof.
  intros Hi Hact Hact' Hki. unfold force_on.
  rewrite list_lookup_insert_ne, length_insert by done.
  destruct (cs !! k) as [ck|]; [|done]. destruct (active ck); [|done].
  assert (∀ x, (<[i := ci']> cs !! x = cs !! x) ∨
               (<[i := ci']> cs !! x = Some ci' ∧ cs !! x = Some ci)) as Hx.
  { intros x. destruct (decide (x = i)) as [->|Hne].
    - right. split; [|done]. apply list_lookup_insert_eq.
      by apply lookup_lt_Some in Hi.
    - left. by apply list_lookup_insert_ne. }
  assert (∀ f x, received (<[i := ci']> cs) ck f x = received cs ck f x) as Hr.
  { intros f x. unfold received.
    destruct (Hx x) as [->|[-> ->]]; [done|]. by rewrite Hact, Hact'. }
  assert (∀ f x, exerted (<[i := ci']> cs) ck f x = exerted cs ck f x) as He.
  { intros f x. unfold exerted.
    destruct (Hx x) as [->|[-> ->]]; [done|]. by rewrite Hact, Hact'. }
  rewrite (foldl_seq_ext (received _ ck) (received cs ck)) by (intros; apply Hr).
  apply foldl_seq_ext. intros; apply He.
Qed.

Lemma compute_forces_inactive cs k ck :
  cs !! k = Some ck → active ck = false → compute_forces cs !! k = Some zero3.
Proof.
  intros Hk Hact.
  rewrite compute_forces_lookup by (by apply lookup_lt_Some in Hk).
  by rewrite (force_on_inactive _ _ ck).
Qed.

Lemma compute_forces_insert_inactive cs i ci ci' k :
  cs !! i = Some ci → active ci = false → active ci' = false → k ≠ i →
  compute_forces (<[i := ci']> cs) !! k = compute_forces cs !! k.
Proof.
  intros Hi Hact Hact' Hki.
  destruct (decide (k < length cs)) as [Hk|Hk].
  - rewrite !compute_forces_lookup by (by rewrite ?length_insert).
    by rewrite (force_on_insert_inactive _ _ ci).
  - rewrite !lookup_ge_None_2; [done| |];
      rewrite length_compute_forces, ?length_insert; lia.
Qed.

(** C2. [compute_forces] returns one vector per particle, in the order of
    its input.  The vector at [k] is [force_on cs k]: starting from zero,
    for every pair [(i, k)], [i < k], of active particles the term
    [k_e * q_i * q_k / d ** 3 * r], [r = pos_k - pos_i],
    [d = sqrt(r . r) + softening], is subtracted, and for every pair [(k, j)],
    [k < j], of active particles the term of that pair is added.  An inactive
    particle receives the zero vector, and its data enter no other particle's
    force.  In binary64 [k_e] is 8.988e9 and [softening] is 1e-14. *)
Theorem compute_forces_pairwise cs :
  length (compute_forces cs) = length cs
  ∧ (∀ k, k < length cs → compute_forces cs !! k = Some (force_on cs k))
  ∧ (∀ ci cj,
       pair_term ci cj =
         scale (k_e * q ci * q cj / distance (vsub (pos cj) (pos ci)) ** 3)%S
               (vsub (pos cj) (pos ci)))
  ∧ (∀ r : Vec3 F,
       distance r = (fsqrt (c0 r ** 2 + c1 r ** 2 + c2 r ** 2) + softening)%S)
  ∧ (∀ k ck, cs !! k = Some ck → active ck = false →
       compute_forces cs !! k = Some zero3)
  ∧ (∀ i ci ci' k, cs !! i = Some ci → active ci = false → active ci' = false →
       k ≠ i →
       compute_forces (<[i := ci']> cs) !! k = compute_forces cs !! k)
  ∧ @k_e float float64 = 8.988e9%float
  ∧ @softening float float64 = 1e-14%float.
Proof.
  split; [apply length_compute_forces|].
  split; [intros k Hk; by apply compute_forces_lookup|].
  split; [done|]. split; [done|].
  split; [apply compute_forces_inactive|].
  split; [|done].
  intros i ci ci' k. apply compute_forces_insert_inactive.
Qed.

End ForceProperties.

Section PairProperties.
Context {F : Type} `{Scalar F}.
Implicit Types (cs : list (Charge F)) (ci cj ck : Charge F) (f : Vec3 F).

(** The forces on [i] and [j] when no other particle is active. *)
Lemma force_on_first_of_pair cs i j ci cj :
  i < j → cs !! i = Some ci → cs !! j = Some cj →
  active ci = true → active cj = true →
  (∀ k ck, cs !! k = Some ck → k ≠ i → k ≠ j → active ck = false) →
  force_on cs i = vadd zero3 (pair_term ci cj).
Proof.
  intros Hij Hi Hj Hai Haj Hothers. unfold force_on. rewrite Hi, Hai.
  pose proof (lookup_lt_Some _ _ _ Hj) as Hlen.
  rewrite (foldl_seq_id (received cs ci)).
  - rewrite (foldl_seq_single _ _ _ _ j); [|lia|].
    + unfold exerted. by rewrite Hj, Haj.
    + intros b x Hx Hxj. unfold exerted.
      destruct (cs !! x) as [cx|] eqn:Hcx; [|done].
      by rewrite (Hothers x cx) by (done || lia).
  - intros b x Hx. unfold received.
    destruct (cs !! x) as [cx|] eqn:Hcx; [|done].
    by rewrite (Hothers x cx) by (done || lia).
Qed.

Lemma force_on_second_of_pair cs i j ci cj :
  i < j → cs !! i = Some ci → cs !! j = Some cj →
  active ci = true → active cj = true →
  (∀ k ck, cs !! k = Some ck → k ≠ i → k ≠ j → active ck = false) →
  force_on cs j = vsub zero3 (pair_term ci cj).
Proof.
  intros Hij Hi Hj Hai Haj Hothers. unfold force_on. rewrite Hj, Haj.
  rewrite (foldl_seq_single (received cs cj) _ _ _ i); [|lia|].
  - rewrite foldl_seq_id.
    + unfold received. by rewrite Hi, Hai.
    + intros b x Hx. unfold exerted.
      destruct (cs !! x) as [cx|] eqn:Hcx; [|done].
      by rewrite (Hothers x cx) by (done || lia).
  - intros b x Hx Hxi. unfold received.
    destruct (cs !! x) as [cx|] eqn:Hcx; [|done].
    by rewrite (Hothers x cx) by (done || lia).
Qed.

(** C6. When [i < j] are the only active particles, the force engine
    computes one term [t = pair_term ci cj], gives particle [i] the force
    [0 + t] and particle [j] the force [0 - t] built from the same term, and
    the force on [i] is the negation of the force on [j]: it is identical to
    [0 - force_j] and numerically equal to [- force_j]. *)
Theorem newton_third_law `{!ScalarLaws F} cs i j ci cj :
  i < j → cs !! i = Some ci → cs !! j = Some cj →
  active ci = true → active cj = true →
  (∀ k ck, cs !! k = Some ck → k ≠ i → k ≠ j → active ck = false) →
  ∃ fi fj,
    compute_forces cs !! i = Some fi ∧ compute_forces cs !! j = Some fj
    ∧ fi = vadd zero3 (pair_term ci cj)
    ∧ fj = vsub zero3 (pair_term ci cj)
    ∧ fi = vneg fj
    ∧ veq fi (vopp fj).
Proof.
  intros Hij Hi Hj Hai Haj Hothers.
  pose proof (lookup_lt_Some _ _ _ Hj) as Hlen.
  exists (force_on cs i), (force_on cs j).
  rewrite !compute_forces_lookup by lia.
  rewrite (force_on_first_of_pair cs i j ci cj) by done.
  rewrite (force_on_second_of_pair cs i j ci cj) by done.
  split; [done|]. split; [done|]. split; [done|]. split; [done|]. split.
  - unfold vneg, vadd, vsub. simpl. by rewrite !fsub_zero_twice.
  - unfold veq, vopp, vadd, vsub. simpl. repeat split; apply fopp_sub_zero.
Qed.

End PairProperties.

(** The "Dipole" preset is such a pair, in binary64. *)
Lemma newton_third_law_witness :
  ∃ fi fj,
    compute_forces Dipole !! 0 = Some fi ∧ compute_forces Dipole !! 1 = Some fj
    ∧ fi = vadd zero3 (pair_term Dipole_plus Dipole_minus)
    ∧ fj = vsub zero3 (pair_term Dipole_plus Dipole_minus)
    ∧ fi = vneg fj
    ∧ veq fi (vopp fj).
Proof.
  apply (newton_third_law Dipole 0 1); try reflexivity; try lia.
  intros [|[|k]] ck Hk; try done.
Defined.

(** ** Properties of the integrator *)

Section IntegratorProperties.
Context {F : Type} `{Scalar F}.
Implicit Types (cs : list (Charge F)) (forces : list (Vec3 F)).
Implicit Types (c : Charge F) (f p : Vec3 F) (b : F * F).

Lemma euler_step_eq c f dt b :
  euler_step c f dt b =
    mkCharge (new_pos c f dt) (new_vel c f dt) (q c) (m c)
             (if outside b (new_pos c f dt) then false else active c).
Proof.
  unfold euler_step, outside, new_pos, new_vel. simpl.
  by destruct (_ || _).
Qed.

Lemma update_physics_lookup cs forces dt b i c f :
  length forces = length cs → cs !! i = Some c → forces !! i = Some f →
  ∃ cs', update_physics cs forces dt b = Some cs'
         ∧ length cs' = length cs
         ∧ cs' !! i = Some (if active c then euler_step c f dt b else c).
Proof.
  intros Hlen Hc Hf. eexists. split; [by apply update_physics_imap|].
  split; [apply length_imap|].
  rewrite list_lookup_imap, Hc. simpl. unfold advance. by rewrite Hf.
Qed.

Lemma elem_of_coords p x : x ∈ coords p ↔ x = c0 p ∨ x = c1 p ∨ x = c2 p.
Proof.
  unfold coords. rewrite !elem_of_cons, elem_of_nil. tauto.
Qed.

Lemma outside_spec b p :
  outside b p = true ↔
  ∃ x, x ∈ coords p ∧ ((x <? fst b)%S = true ∨ (snd b <? x)%S = true).
Proof.
  unfold outside, any_lt, any_gt. rewrite !orb_true_iff. split.
  - intros [[[Hc|Hc]|Hc]|[[Hc|Hc]|Hc]];
      [exists (c0 p)|exists (c1 p)|exists (c2 p)
      |exists (c0 p)|exists (c1 p)|exists (c2 p)];
      (split; [apply elem_of_coords; auto|auto]).
  - intros (x & Hx & Hcmp). apply elem_of_coords in Hx.
    destruct Hx as [->|[->| ->]]; tauto.
Qed.

(** C4. When the position assigned to an active particle has a coordinate
    outside the bounds, the particle is stored with [active = False] at that
    very position, with the velocity of the same step, and the array keeps
    its length. *)
Theorem boundary_deactivation cs forces dt b i c f :
  length forces = length cs → cs !! i = Some c → forces !! i = Some f →
  active c = true →
  outside b (new_pos c f dt) = true →
  ∃ cs', update_physics cs forces dt b = Some cs'
         ∧ length cs' = length cs
         ∧ cs' !! i = Some (mkCharge (new_pos c f dt) (new_vel c f dt)
                                     (q c) (m c) false).
Proof.
  intros Hlen Hc Hf Hact Hout.
  destruct (update_physics_lookup cs forces dt b i c f) as (cs' & -> & Hl & Hi);
    [done..|].
  exists cs'. split; [done|]. split; [done|].
  by rewrite Hi, Hact, euler_step_eq, Hout.
Qed.

(** C10. An active particle whose assigned position has every coordinate
    equal to a bound or between the bounds stays active; and whatever the
    position, the step clears the flag of an active particle exactly when
    some coordinate is strictly below the lower or strictly above the upper
    bound. *)
Theorem boundary_is_strict `{!ScalarLaws F} cs forces dt b i c f :
  length forces = length cs → cs !! i = Some c → forces !! i = Some f →
  active c = true →
  ∃ cs' c',
    update_physics cs forces dt b = Some cs' ∧ cs' !! i = Some c'
    ∧ pos c' = new_pos c f dt
    ∧ ((∀ x, x ∈ coords (new_pos c f dt) →
          x = fst b ∨ x = snd b ∨ (fle (fst b) x = true ∧ fle x (snd b) = true)) →
       fle (fst b) (snd b) = true →
       active c' = true)
    ∧ (active c' = false ↔
       ∃ x, x ∈ coords (new_pos c f dt)
            ∧ ((x <? fst b)%S = true ∨ (snd b <? x)%S = true)).
Proof.
  intros Hlen Hc Hf Hact.
  destruct (update_physics_lookup cs forces dt b i c f) as (cs' & -> & Hl & Hi);
    [done..|].
  rewrite Hact, euler_step_eq in Hi.
  eexists _, _. split; [done|]. split; [exact Hi|]. simpl. split; [done|].
  rewrite Hact. split.
  - intros Hin Hb.
    destruct (outside b (new_pos c f dt)) eqn:Hout; [|done].
    apply outside_spec in Hout as (x & Hx & Hcmp).
    destruct (Hin x Hx) as [->|[->|[Hlo Hhi]]].
    + destruct Hcmp as [Hcmp|Hcmp].
      * by rewrite flt_irrefl in Hcmp.
      * by rewrite (fle_not_gt _ _ Hb) in Hcmp.
    + destruct Hcmp as [Hcmp|Hcmp].
      * by rewrite (fle_not_gt _ _ Hb) in Hcmp.
      * by rewrite flt_irrefl in Hcmp.
    + destruct Hcmp as [Hcmp|Hcmp].
      * by rewrite (fle_not_gt _ _ Hlo) in Hcmp.
      * by rewrite (fle_not_gt _ _ Hhi) in Hcmp.
  - rewrite <-outside_spec. by destruct (outside b (new_pos c f dt)).
Qed.

(** Any particle that is alone among the active ones has zero force. *)
Lemma force_on_alone cs i c :
  cs !! i = Some c →
  (∀ k ck, cs !! k = Some ck → k ≠ i → active ck = false) →
  force_on cs i = zero3.
Proof.
  intros Hc Hothers. unfold force_on. rewrite Hc.
  destruct (active c); [|done].
  rewrite (foldl_seq_id (received cs c)).
  - apply foldl_seq_id. intros g x Hx. unfold exerted.
    destruct (cs !! x) as [cx|] eqn:Hcx; [|done].
    by rewrite (Hothers x cx) by (done || lia).
  - intros g x Hx. unfold received.
    destruct (cs !! x) as [cx|] eqn:Hcx; [|done].
    by rewrite (Hothers x cx) by (done || lia).
Qed.

(** C3. With one force per particle, [update_physics] gives every active
    particle the velocity [vel + f / m * dt] and then the position
    [pos + vel' * dt] computed from that new velocity [vel'].  A particle of
    positive mass that is the only active one has zero force, and one step
    with a finite [dt] leaves its velocity numerically as it is and moves it
    by [vel * dt]. *)
Theorem semi_implicit_euler `{!ScalarLaws F} cs dt b i c :
  cs !! i = Some c → active c = true →
  (∀ forces f, length forces = length cs → forces !! i = Some f →
     ∃ cs' c', update_physics cs forces dt b = Some cs' ∧ cs' !! i = Some c'
       ∧ vel c' = vadd (vel c) (vmuls (vdivs f (m c)) dt)
       ∧ pos c' = vadd (pos c) (vmuls (vel c') dt))
  ∧ ((fzero <? m c)%S = true → ffinite dt →
     (∀ k ck, cs !! k = Some ck → k ≠ i → active ck = false) →
     compute_forces cs !! i = Some zero3
     ∧ ∃ cs' c', update_physics cs (compute_forces cs) dt b = Some cs'
         ∧ cs' !! i = Some c'
         ∧ veq (vel c') (vel c)
         ∧ veq (pos c') (vadd (pos c) (vmuls (vel c) dt))).
Proof.
  intros Hc Hact.
  assert (∀ forces f, length forces = length cs → forces !! i = Some f →
     ∃ cs' c', update_physics cs forces dt b = Some cs' ∧ cs' !! i = Some c'
       ∧ vel c' = vadd (vel c) (vmuls (vdivs f (m c)) dt)
       ∧ pos c' = vadd (pos c) (vmuls (vel c') dt)) as Hstep.
  { intros forces f Hlen Hf.
    destruct (update_physics_lookup cs forces dt b i c f)
      as (cs' & -> & Hl & Hi); [done..|].
    rewrite Hact, euler_step_eq in Hi.
    eexists _, _. split; [done|]. split; [exact Hi|]. done. }
  split; [exact Hstep|].
  intros Hm Hdt Hothers.
  pose proof (lookup_lt_Some _ _ _ Hc) as Hlt.
  assert (compute_forces cs !! i = Some zero3) as Hzero.
  { rewrite compute_forces_lookup by done.
    by rewrite (force_on_alone cs i c). }
  split; [done|].
  destruct (Hstep (compute_forces cs) zero3) as (cs' & c' & Hup & Hi & Hv & Hp);
    [apply length_compute_forces|done|].
  assert (veq (vel c') (vel c)) as Hv'.
  { rewrite Hv. unfold veq, vadd, vmuls, vdivs, zero3. simpl.
    rewrite (fdiv_zero_l _ Hm).
    repeat split; apply fadd_zero_r, fmul_zero_l, Hdt. }
  exists cs', c'. split; [done|]. split; [done|]. split; [done|].
  rewrite Hp. destruct Hv' as (Hv0 & Hv1 & Hv2).
  unfold veq, vadd, vmuls. simpl.
  repeat split; by apply fadd_feq, fmul_feq.
Qed.

End IntegratorProperties.

(** The particle that leaves through the upper bound. *)
Lemma boundary_deactivation_witness :
  ∃ cs', update_physics [leaving_particle] [zero3] default_dt boundary = Some cs'
         ∧ length cs' = 1
         ∧ cs' !! 0 =
             Some (mkCharge (new_pos leaving_particle zero3 default_dt)
                            (new_vel leaving_particle zero3 default_dt)
                            (q leaving_particle) (m leaving_particle) false).
Proof.
  apply (boundary_deactivation [leaving_particle] [zero3] default_dt boundary 0);
    reflexivity.
Defined.

(** The particle that arrives exactly on the upper bound stays active. *)
Lemma boundary_is_strict_witness :
  ∃ cs' c',
    update_physics [arriving_particle] [zero3] default_dt boundary = Some cs'
    ∧ cs' !! 0 = Some c'
    ∧ c0 (pos c') = 100000%float
    ∧ active c' = true.
Proof.
  destruct (boundary_is_strict [arriving_particle] [zero3] default_dt boundary
              0 arriving_particle zero3)
    as (cs' & c' & Hup & Hc & Hpos & Hin & _); try reflexivity.
  exists cs', c'. split; [exact Hup|]. split; [exact Hc|].
  split; [by rewrite Hpos|].
  apply Hin; [|reflexivity].
  intros x Hx. apply elem_of_coords in Hx.
  destruct Hx as [->|[->| ->]]; [right; left|right; right..]; try reflexivity;
    split; reflexivity.
Defined.

(** A lone binary64 particle whose velocity has a negative zero. *)
Lemma semi_implicit_euler_witness :
  compute_forces [lone_particle] !! 0 = Some zero3
  ∧ ∃ cs' c', update_physics [lone_particle] (compute_forces [lone_particle])
                default_dt boundary = Some cs'
      ∧ cs' !! 0 = Some c'
      ∧ veq (vel c') (vel lone_particle)
      ∧ veq (pos c') (vadd (pos lone_particle)
                           (vmuls (vel lone_particle) default_dt)).
Proof.
  destruct (semi_implicit_euler [lone_particle] default_dt boundary 0 lone_particle)
    as [_ Hlone]; try reflexivity.
  apply Hlone; try reflexivity.
  intros [|k] ck Hk; done.
Defined.

(** ** The simulation object *)

Section Simulation.
Context {F : Type} `{Scalar F}.
Implicit Types (self : ChargeSimulation F) (h : Heap F).
Implicit Types (cs : list (Charge F)) (trs : list (list (Vec3 F))).

Lemma length_tick_array cs dt : length (tick_array cs dt) = length cs.
Proof. apply length_imap. Qed.

Lemma length_recorded cs trs : length (recorded cs trs) = length trs.
Proof. apply length_imap. Qed.

Lemma tick_array_lookup cs dt i c :
  cs !! i = Some c →
  tick_array cs dt !! i =
    Some (if active c then euler_step c (force_on cs i) dt boundary else c).
Proof.
  intros Hc. unfold tick_array. rewrite list_lookup_imap, Hc. simpl.
  unfold advance.
  rewrite compute_forces_lookup by (by apply lookup_lt_Some in Hc). done.
Qed.

Lemma update_paused self h :
  running self = false → update self h = Some (self, h).
Proof. intros Hr. unfold update. by rewrite Hr. Qed.

Lemma update_running self h cs :
  running self = true →
  charge_arrays h !! charges self = Some cs → cs ≠ [] →
  length (trajectories self) = length cs →
  update self h =
    Some (mkSim (dt self) (presets self) (current_preset self) (charges self)
                (colors self)
                (recorded (tick_array cs (dt self)) (trajectories self))
                (running self),
          mkHeap (<[charges self := tick_array cs (dt self)]> (charge_arrays h))
                 (color_arrays h)).
Proof.
  intros Hr Hcs Hne Hlen. unfold update. rewrite Hr. simpl.
  unfold bind at 1. unfold read_charges at 1. rewrite Hcs. simpl.
  unfold bind at 1.
  rewrite update_physics_imap by apply length_compute_forces.
  fold (tick_array cs (dt self)). simpl.
  unfold bind at 1. unfold write_charges at 1.
  unfold bind at 1.
  rewrite record_positions_imap by (by rewrite length_tick_array).
  fold (recorded (tick_array cs (dt self)) (trajectories self)). simpl.
  unfold bind at 1. unfold mass_max_check, bind, read_charges. simpl.
  rewrite lookup_insert_eq. simpl.
  destruct (tick_array cs (dt self)) as [|c' cs'] eqn:Htick; [|done].
  apply (f_equal length) in Htick. rewrite length_tick_array in Htick.
  by destruct cs.
Qed.

Lemma load_arrays_Some self h s' h' :
  load_arrays self h = Some (s', h') ↔
  ∃ p cs cols,
    getitem (presets self) (current_preset self) = Some p
    ∧ charge_arrays h !! preset_charges p = Some cs
    ∧ color_arrays h !! preset_colors p = Some cols
    ∧ s' = loaded_sim self (current_preset self) h cs
    ∧ h' = loaded_heap h cs cols.
Proof.
  unfold load_arrays, bind, lift, copy_charges, copy_colors, read_charges, ret.
  unfold loaded_sim, loaded_heap. split.
  - destruct (getitem _ _) as [p|]; [|done].
    destruct (charge_arrays h !! preset_charges p) as [cs|] eqn:Hcs; [|done].
    simpl.
    destruct (color_arrays h !! preset_colors p) as [cols|] eqn:Hcols; [|done].
    simpl. rewrite lookup_insert_eq. intros [= <- <-].
    by exists p, cs, cols.
  - intros (p & cs & cols & -> & Hcs & Hcols & -> & ->).
    rewrite Hcs. simpl. rewrite Hcols. simpl. by rewrite lookup_insert_eq.
Qed.

Lemma loaded_heap_charges self i h cs cols :
  charge_arrays (loaded_heap h cs cols) !! charges (loaded_sim self i h cs)
    = Some cs.
Proof. apply lookup_insert_eq. Qed.

(** [_update_visuals_initial] after the arrays are loaded. *)
Lemma visuals_after_load self i h cs cols :
  _update_visuals_initial (loaded_sim self i h cs) (loaded_heap h cs cols) =
    if decide (cs = []) then None else Some (tt, loaded_heap h cs cols).
Proof.
  unfold _update_visuals_initial, mass_max_check, bind, read_charges, lift.
  simpl. rewrite lookup_insert_eq. by destruct cs.
Qed.

Lemma reset_simulation_Some self idx h s' h' :
  reset_simulation self idx h = Some (s', h') ↔
  ∃ p cs cols,
    getitem (presets self) (default (current_preset self) idx) = Some p
    ∧ charge_arrays h !! preset_charges p = Some cs
    ∧ color_arrays h !! preset_colors p = Some cols
    ∧ cs ≠ []
    ∧ s' = loaded_sim self (default (current_preset self) idx) h cs
    ∧ h' = loaded_heap h cs cols.
Proof.
  unfold reset_simulation.
  set (self0 := match idx with Some i => _ | None => self end).
  assert (presets self0 = presets self
          ∧ current_preset self0 = default (current_preset self) idx
          ∧ ∀ i cs, loaded_sim self0 i h cs = loaded_sim self i h cs)
    as (Hps & Hcur & Hld) by (by destruct idx).
  unfold bind at 1. split.
  - destruct (load_arrays self0 h) as [[s1 h1]|] eqn:Hload; [|done].
    apply load_arrays_Some in Hload as (p & cs & cols & Hp & Hcs & Hcols & -> & ->).
    unfold bind. rewrite visuals_after_load.
    destruct (decide (cs = [])); [done|]. unfold ret. intros [= <- <-].
    exists p, cs, cols. rewrite <-Hps, <-Hcur, <-Hld. done.
  - intros (p & cs & cols & Hp & Hcs & Hcols & Hne & -> & ->).
    assert (load_arrays self0 h =
            Some (loaded_sim self0 (current_preset self0) h cs,
                  loaded_heap h cs cols)) as ->.
    { apply load_arrays_Some. exists p, cs, cols. by rewrite Hps, Hcur. }
    unfold bind. rewrite visuals_after_load.
    destruct (decide (cs = [])); [done|]. by rewrite Hcur, Hld.
Qed.

Lemma init_Some (ps : list Preset) h s' h' :
  init ps h = Some (s', h') ↔
  ∃ p cs cols,
    getitem ps 0 = Some p
    ∧ charge_arrays h !! preset_charges p = Some cs
    ∧ color_arrays h !! preset_colors p = Some cols
    ∧ cs ≠ []
    ∧ s' = loaded_sim (mkSim default_dt ps 0 0 0 [] false) 0 h cs
    ∧ h' = loaded_heap h cs cols.
Proof.
  unfold init. unfold bind at 1. split.
  - destruct (load_arrays _ h) as [[s1 h1]|] eqn:Hload; [|done].
    apply load_arrays_Some in Hload as (p & cs & cols & Hp & Hcs & Hcols & -> & ->).
    unfold bind. rewrite visuals_after_load.
    destruct (decide (cs = [])); [done|]. unfold ret. intros [= <- <-].
    by exists p, cs, cols.
  - intros (p & cs & cols & Hp & Hcs & Hcols & Hne & -> & ->).
    set (self0 := mkSim default_dt ps 0 0 0 [] false).
    assert (load_arrays self0 h =
            Some (loaded_sim self0 0 h cs, loaded_heap h cs cols)) as ->.
    { apply load_arrays_Some. by exists p, cs, cols. }
    unfold bind. rewrite visuals_after_load.
    by destruct (decide (cs = [])).
Qed.

(** *** One event of a run *)

Lemma handle_no_reset self h e cs :
  is_reset e = false →
  charge_arrays h !! charges self = Some cs → cs ≠ [] →
  length (trajectories self) = length cs →
  ∃ s' h',
    handle self e h = Some (s', h')
    ∧ charges s' = charges self
    ∧ running s' = running_after e (running self)
    ∧ charge_arrays h' !! charges self =
        Some (if advances e (running self) then tick_array cs (dt self) else cs)
    ∧ trajectories s' =
        (if advances e (running self)
         then recorded (tick_array cs (dt self)) (trajectories self)
         else trajectories self)
    ∧ (∀ l, l ≠ charges self → charge_arrays h' !! l = charge_arrays h !! l)
    ∧ dom (charge_arrays h') = dom (charge_arrays h).
Proof.
  intros He Hcs Hne Hlen. destruct e; try done; simpl.
  - destruct (running self) eqn:Hr.
    + rewrite (update_running self h cs) by done.
      eexists _, _. split; [done|]. simpl. rewrite Hr.
      split; [done|]. split; [done|].
      split; [by rewrite lookup_insert_eq|]. split; [done|].
      split; [by intros l Hl; rewrite lookup_insert_ne|].
      apply dom_insert_lookup_L. by rewrite Hcs.
    + rewrite update_paused by done. by eexists _, _.
  - by eexists _, _.
  - by eexists _, _.
Qed.

Lemma advanced_cons e es r :
  advanced (e :: es) r =
    (if advances e r then 1 else 0) + advanced es (running_after e r).
Proof. destruct e; simpl; try done. Qed.

(** *** A run without reset *)

Lemma run_no_reset es :
  Forall (λ e, is_reset e = false) es →
  ∀ self h cs,
    charge_arrays h !! charges self = Some cs → cs ≠ [] →
    length (trajectories self) = length cs →
    ∃ s' h' cs',
      run es self h = Some (s', h')
      ∧ charges s' = charges self
      ∧ charge_arrays h' !! charges self = Some cs'
      ∧ length cs' = length cs
      ∧ length (trajectories s') = length cs
      ∧ (∀ i c, cs !! i = Some c → active c = false → cs' !! i = Some c)
      ∧ (∀ n, Forall (λ t, length t = n) (trajectories self) →
              Forall (λ t, length t = n + advanced es (running self))
                     (trajectories s'))
      ∧ (∀ l, l ≠ charges self → charge_arrays h' !! l = charge_arrays h !! l)
      ∧ dom (charge_arrays h') = dom (charge_arrays h).
Proof.
  induction 1 as [|e es He Hes IH]; intros self h cs Hcs Hne Hlen.
  - exists self, h, cs. simpl. repeat split; try done.
    intros n Hn. by rewrite Nat.add_0_r.
  - destruct (handle_no_reset self h e cs)
      as (s1 & h1 & Hh & Hch & Hrun & Harr & Htr & Hfr & Hdom); [done..|].
    set (cs1 := if advances e (running self)
                then tick_array cs (dt self) else cs) in *.
    assert (length cs1 = length cs) as Hlen1.
    { unfold cs1. destruct (advances _ _); [apply length_tick_array|done]. }
    assert (length (trajectories s1) = length cs1) as Hlen1'.
    { rewrite Htr, Hlen1. destruct (advances _ _); [|done].
      by rewrite length_recorded. }
    destruct (IH s1 h1 cs1)
      as (s' & h' & cs' & Hr' & Hch' & Harr' & Hl' & Hlt' & Hin' & Htr' & Hfr' & Hdom');
      [by rewrite Hch|by destruct cs1, cs|done|].
    exists s', h', cs'.
    change (run (e :: es) self h)
      with (bind (handle self e) (λ self, run es self) h).
    unfold bind. rewrite Hh.
    split; [done|]. split; [congruence|]. split; [by rewrite <-Hch|].
    split; [congruence|]. split; [congruence|]. split; [|split; [|split]].
    + intros i c Hc Hact. apply Hin'; [|done]. unfold cs1.
      destruct (advances _ _); [|done].
      by rewrite (tick_array_lookup _ _ _ c), Hact.
    + intros n Hn. rewrite advanced_cons, <-Hrun, Nat.add_assoc. apply Htr'.
      rewrite Htr. destruct (advances e (running self)).
      * apply Forall_lookup. intros i t. unfold recorded.
        rewrite list_lookup_imap. intros Ht.
        apply fmap_Some in Ht as (t0 & Ht0 & ->).
        rewrite Forall_lookup in Hn. specialize (Hn i t0 Ht0).
        destruct (tick_array cs (dt self) !! i) eqn:Hti.
        -- rewrite length_app. simpl. lia.
        -- apply lookup_ge_None in Hti. rewrite length_tick_array in Hti.
           apply lookup_lt_Some in Ht0. lia.
      * by rewrite Nat.add_0_r.
    + intros l Hl. rewrite Hfr', Hfr by congruence. done.
    + congruence.
Qed.

(** *** Which arrays an event can change *)

Lemma update_Some self h s' h' :
  update self h = Some (s', h') →
  charges s' = charges self
  ∧ (h' = h
     ∨ ∃ cs', is_Some (charge_arrays h !! charges self)
              ∧ h' = mkHeap (<[charges self := cs']> (charge_arrays h))
                            (color_arrays h)).
Proof.
  unfold update. destruct (running self); simpl.
  - unfold bind at 1. unfold read_charges at 1. unfold lift at 1.
    destruct (charge_arrays h !! charges self) as [cs|] eqn:Hcs; [|done].
    unfold bind at 1. unfold lift at 1.
    destruct (update_physics _ _ _ _) as [cs'|]; [|done].
    unfold bind at 1. unfold write_charges at 1.
    unfold bind at 1. unfold lift at 1.
    destruct (record_positions _ _) as [trs|]; [|done].
    unfold bind at 1. unfold mass_max_check, bind, read_charges, lift. simpl.
    rewrite lookup_insert_eq. destruct cs'; [done|].
    unfold ret. intros [= <- <-]. split; [done|]. right. by exists (c :: cs').
  - unfold ret. intros [= <- <-]. split; [done|]. by left.
Qed.

Lemma handle_frame self h e s' h' :
  handle self e h = Some (s', h') →
  (∀ l, l ∈ dom (charge_arrays h) → l ≠ charges self →
        charge_arrays h' !! l = charge_arrays h !! l)
  ∧ dom (charge_arrays h) ⊆ dom (charge_arrays h')
  ∧ (charges s' = charges self ∨ charges s' ∉ dom (charge_arrays h)).
Proof.
  assert (∀ idx, reset_simulation self idx h = Some (s', h') →
    (∀ l, l ∈ dom (charge_arrays h) → l ≠ charges self →
          charge_arrays h' !! l = charge_arrays h !! l)
    ∧ dom (charge_arrays h) ⊆ dom (charge_arrays h')
    ∧ (charges s' = charges self ∨ charges s' ∉ dom (charge_arrays h)))
    as Hreset.
  { intros idx (p & cs & cols & _ & _ & _ & _ & -> & ->)%reset_simulation_Some.
    simpl. split; [|split].
    - intros l Hl _. apply lookup_insert_ne. intros <-.
      by apply (is_fresh (dom (charge_arrays h))).
    - rewrite dom_insert_L. set_solver.
    - right. apply is_fresh. }
  destruct e; simpl; [|intros [= <- <-]; auto..|apply Hreset|apply Hreset].
  intros Hup. apply update_Some in Hup as [Hch [->|(cs' & Hsome & ->)]];
    [auto|]. simpl.
  split; [|split; [|auto]].
  - intros l _ Hl. by apply lookup_insert_ne.
  - rewrite dom_insert_L. set_solver.
Qed.

(** Arrays that exist and are not the simulation's charge array keep their
    contents through any sequence of events, resets included. *)
Lemma run_frame es :
  ∀ self h s' h' (P : gset loc),
    run es self h = Some (s', h') →
    P ⊆ dom (charge_arrays h) → charges self ∉ P →
    (∀ l, l ∈ P → charge_arrays h' !! l = charge_arrays h !! l)
    ∧ (charges s' ∉ P)
    ∧ (P ⊆ dom (charge_arrays h')).
Proof.
  induction es as [|e es IH]; intros self h s' h' P; simpl.
  - by intros [= <- <-].
  - unfold bind. destruct (handle self e h) as [[s1 h1]|] eqn:Hh; [|done].
    intros Hrun HP Hself.
    apply handle_frame in Hh as (Hkeep & Hdom & Hloc).
    destruct (IH s1 h1 s' h' P Hrun) as (Hkeep' & Hout & HP').
    + set_solver.
    + destruct Hloc as [->|Hloc]; [done|set_solver].
    + split; [|done]. intros l Hl. rewrite Hkeep' by done.
      apply Hkeep; [set_solver|]. by intros ->.
Qed.

(** *** Deactivation, trajectories and presets *)

(** C5. In a run (a sequence of frames, pauses and changes of [dt], with no
    reset) a particle that is inactive stays exactly as it is: position,
    velocity and flag.  At every state of the run it receives the zero force,
    and the forces on the other particles do not depend on its data. *)
Theorem deactivation_is_permanent self h cs es i c :
  charge_arrays h !! charges self = Some cs → cs ≠ [] →
  length (trajectories self) = length cs →
  Forall (λ e, is_reset e = false) es →
  cs !! i = Some c → active c = false →
  ∃ s' h' cs',
    run es self h = Some (s', h')
    ∧ charge_arrays h' !! charges s' = Some cs'
    ∧ cs' !! i = Some c
    ∧ compute_forces cs' !! i = Some zero3
    ∧ (∀ c' k, active c' = false → k ≠ i →
         compute_forces (<[i := c']> cs') !! k = compute_forces cs' !! k).
Proof.
  intros Hcs Hne Hlen Hes Hc Hact.
  destruct (run_no_reset es Hes self h cs)
    as (s' & h' & cs' & Hrun & Hch & Harr & _ & _ & Hin & _); [done..|].
  exists s', h', cs'. split; [done|]. split; [by rewrite Hch|].
  pose proof (Hin i c Hc Hact) as Hc'. split; [done|].
  split; [by apply (compute_forces_inactive _ _ c)|].
  intros c' k Hact' Hk. by apply (compute_forces_insert_inactive _ _ c).
Qed.

(** C8. After a reset there is one empty trajectory per particle of the
    loaded preset.  In the run that follows every trajectory has as many
    entries as frames have advanced the simulation.  A frame while [running]
    appends to the trajectory of every particle, active or not, the position
    the particle has after [update_physics]; a frame while paused changes
    nothing. *)
Theorem trajectories_follow_ticks self idx h s0 h0 es :
  reset_simulation self idx h = Some (s0, h0) →
  Forall (λ e, is_reset e = false) es →
  ∃ p cs0 s' h' cs',
    getitem (presets self) (default (current_preset self) idx) = Some p
    ∧ charge_arrays h !! preset_charges p = Some cs0
    ∧ charge_arrays h0 !! charges s0 = Some cs0
    ∧ trajectories s0 = replicate (length cs0) []
    ∧ run es s0 h0 = Some (s', h')
    ∧ charge_arrays h' !! charges s' = Some cs'
    ∧ length cs' = length cs0
    ∧ length (trajectories s') = length cs0
    ∧ Forall (λ t, length t = advanced es (running s0)) (trajectories s')
    ∧ (running s' = false → update s' h' = Some (s', h'))
    ∧ (running s' = true →
       ∃ s'' h'',
         update s' h' = Some (s'', h'')
         ∧ charge_arrays h'' !! charges s'' = Some (tick_array cs' (dt s'))
         ∧ length (trajectories s'') = length cs0
         ∧ ∀ i t, trajectories s' !! i = Some t →
             ∃ c, tick_array cs' (dt s') !! i = Some c
                  ∧ trajectories s'' !! i = Some (t ++ [pos c])).
Proof.
  intros Hreset Hes.
  apply reset_simulation_Some in Hreset
    as (p & cs0 & cols & Hp & Hpcs & _ & Hne & -> & ->).
  set (s0 := loaded_sim _ _ _ _). set (h0 := loaded_heap _ _ _).
  assert (charge_arrays h0 !! charges s0 = Some cs0) as Hcs0
    by apply lookup_insert_eq.
  assert (length (trajectories s0) = length cs0) as Hlen0
    by apply length_replicate.
  destruct (run_no_reset es Hes s0 h0 cs0)
    as (s' & h' & cs' & Hrun & Hch & Harr & Hl & Hlt & _ & Htr & _); [done..|].
  exists p, cs0, s', h', cs'. split; [done|]. split; [done|].
  split; [done|]. split; [done|]. split; [done|].
  rewrite Hch. split; [done|]. split; [done|]. split; [done|]. split.
  { apply (Htr 0). apply Forall_forall. by intros t ->%elem_of_replicate_inv. }
  split; [apply update_paused|].
  intros Hr. rewrite <-Hch in Harr.
  rewrite (update_running s' h' cs') by (done || congruence || by destruct cs', cs0).
  eexists _, _. split; [done|]. simpl.
  split; [by rewrite lookup_insert_eq|].
  split; [by rewrite length_recorded|].
  intros i t Ht. unfold recorded. rewrite list_lookup_imap, Ht. simpl.
  destruct (tick_array cs' (dt s') !! i) as [c|] eqn:Hc; [by exists c|].
  apply lookup_ge_None in Hc. rewrite length_tick_array in Hc.
  apply lookup_lt_Some in Ht. lia.
Qed.

(** C7. Two loads of the preset at [idx] give two charge arrays and two
    color arrays with the contents of the preset's, at locations that differ
    from each other and from the preset's.  Whatever either simulation does
    afterwards (frames and further resets), the array of the other one and
    every array that existed before the loads, the presets' among them, keep
    their contents. *)
Theorem preset_round_trip self self' idx h s1 h1 s2 h2 :
  presets self' = presets self →
  reset_simulation self (Some idx) h = Some (s1, h1) →
  reset_simulation self' (Some idx) h1 = Some (s2, h2) →
  ∃ p cs cols,
    getitem (presets self) idx = Some p
    ∧ charge_arrays h !! preset_charges p = Some cs
    ∧ color_arrays h !! preset_colors p = Some cols
    ∧ charge_arrays h2 !! charges s1 = Some cs
    ∧ charge_arrays h2 !! charges s2 = Some cs
    ∧ charge_arrays h2 !! preset_charges p = Some cs
    ∧ color_arrays h2 !! colors s1 = Some cols
    ∧ color_arrays h2 !! colors s2 = Some cols
    ∧ color_arrays h2 !! preset_colors p = Some cols
    ∧ charges s1 ≠ charges s2
    ∧ charges s1 ≠ preset_charges p
    ∧ charges s2 ≠ preset_charges p
    ∧ colors s1 ≠ colors s2
    ∧ (∀ l, l ∈ dom (charge_arrays h) →
         charge_arrays h2 !! l = charge_arrays h !! l)
    ∧ (∀ es s' h', run es s2 h2 = Some (s', h') →
         charge_arrays h' !! charges s1 = Some cs
         ∧ ∀ l, l ∈ dom (charge_arrays h) →
             charge_arrays h' !! l = charge_arrays h !! l)
    ∧ (∀ es s' h', run es s1 h2 = Some (s', h') →
         charge_arrays h' !! charges s2 = Some cs
         ∧ ∀ l, l ∈ dom (charge_arrays h) →
             charge_arrays h' !! l = charge_arrays h !! l).
Proof.
  intros Hps Hr1 Hr2.
  apply reset_simulation_Some in Hr1
    as (p & cs & cols & Hp & Hcs & Hcols & Hne & -> & ->).
  apply reset_simulation_Some in Hr2
    as (p' & cs' & cols' & Hp' & Hcs' & Hcols' & _ & -> & ->).
  unfold loaded_sim, loaded_heap in *. simpl in *.
  rewrite Hps, Hp in Hp'. injection Hp' as <-.
  set (l1 := fresh (dom (charge_arrays h))) in *.
  set (k1 := fresh (dom (color_arrays h))) in *.
  assert (l1 ∉ dom (charge_arrays h)) as Hl1 by apply is_fresh.
  assert (k1 ∉ dom (color_arrays h)) as Hk1 by apply is_fresh.
  assert (preset_charges p ∈ dom (charge_arrays h)) as Hpin
    by (apply elem_of_dom; eauto).
  assert (preset_colors p ∈ dom (color_arrays h)) as Hqin
    by (apply elem_of_dom; eauto).
  assert (preset_charges p ≠ l1) as Hpl1 by (intros Heq; by rewrite Heq in Hpin).
  assert (preset_colors p ≠ k1) as Hqk1 by (intros Heq; by rewrite Heq in Hqin).
  rewrite lookup_insert_ne in Hcs' by done.
  rewrite lookup_insert_ne in Hcols' by done.
  rewrite Hcs in Hcs'. injection Hcs' as <-.
  rewrite Hcols in Hcols'. injection Hcols' as <-.
  set (m1 := <[l1 := cs]> (charge_arrays h)) in *.
  set (n1 := <[k1 := cols]> (color_arrays h)) in *.
  set (l2 := fresh (dom m1)) in *. set (k2 := fresh (dom n1)) in *.
  assert (l2 ∉ dom m1) as Hl2 by apply is_fresh.
  assert (k2 ∉ dom n1) as Hk2 by apply is_fresh.
  assert (dom m1 = {[l1]} ∪ dom (charge_arrays h)) as Hm1
    by apply dom_insert_L.
  assert (dom n1 = {[k1]} ∪ dom (color_arrays h)) as Hn1
    by apply dom_insert_L.
  assert (l1 ≠ l2) as Hl12 by (intros Heq; apply Hl2; rewrite <-Heq; set_solver).
  assert (k1 ≠ k2) as Hk12 by (intros Heq; apply Hk2; rewrite <-Heq; set_solver).
  assert (preset_charges p ≠ l2) as Hpl2
    by (intros Heq; apply Hl2; rewrite <-Heq; set_solver).
  assert (preset_colors p ≠ k2) as Hqk2
    by (intros Heq; apply Hk2; rewrite <-Heq; set_solver).
  assert (∀ l, l ∈ dom (charge_arrays h) →
            <[l2 := cs]> m1 !! l = charge_arrays h !! l) as Hold.
  { intros l Hl. unfold m1. rewrite !lookup_insert_ne; [done|..];
      intros Heq; [apply Hl1|apply Hl2]; rewrite Heq; set_solver. }
  exists p, cs, cols.
  split; [done|]. split; [done|]. split; [done|].
  split; [unfold m1; by rewrite lookup_insert_ne, lookup_insert_eq|].
  split; [by rewrite lookup_insert_eq|].
  split; [by rewrite Hold|].
  split; [unfold n1; by rewrite lookup_insert_ne, lookup_insert_eq|].
  split; [by rewrite lookup_insert_eq|].
  split; [unfold n1; by rewrite !lookup_insert_ne|].
  split; [done|]. split; [done|]. split; [done|]. split; [done|].
  split; [exact Hold|].
  assert (dom (<[l2 := cs]> m1) = {[l2]} ∪ ({[l1]} ∪ dom (charge_arrays h)))
    as Hdom2 by (by rewrite dom_insert_L, Hm1).
  split.
  - intros es s' h' Hrun.
    destruct (run_frame es _ _ _ _ ({[l1]} ∪ dom (charge_arrays h)) Hrun)
      as (Hkeep & _ & _).
    + simpl. rewrite Hdom2. set_solver.
    + simpl. set_solver.
    + simpl in Hkeep. split.
      * rewrite Hkeep by set_solver. unfold m1.
        by rewrite lookup_insert_ne, lookup_insert_eq.
      * intros l Hl. rewrite Hkeep by set_solver. by apply Hold.
  - intros es s' h' Hrun.
    destruct (run_frame es _ _ _ _ ({[l2]} ∪ dom (charge_arrays h)) Hrun)
      as (Hkeep & _ & _).
    + simpl. rewrite Hdom2. set_solver.
    + simpl. set_solver.
    + simpl in Hkeep. split.
      * rewrite Hkeep by set_solver. by rewrite lookup_insert_eq.
      * intros l Hl. rewrite Hkeep by set_solver. by apply Hold.
Qed.

End Simulation.

(** ** Concrete runs in binary64 *)

(** Two frames, with a change of [dt] between them, on an array whose
    second particle is inactive. *)
Lemma deactivation_is_permanent_witness :
  ∃ s' h' cs',
    run [Frame; UpdateDt 4; Frame] half_gone_sim half_gone_heap = Some (s', h')
    ∧ charge_arrays h' !! charges s' = Some cs'
    ∧ cs' !! 1 = Some gone_particle
    ∧ compute_forces cs' !! 1 = Some zero3
    ∧ (∀ c' k, active c' = false → k ≠ 1 →
         compute_forces (<[1 := c']> cs') !! k = compute_forces cs' !! k).
Proof.
  apply (deactivation_is_permanent half_gone_sim half_gone_heap
           [Dipole_plus; gone_particle]);
    try reflexivity; [done|].
  repeat constructor.
Defined.

(** The dipole is loaded; of three frames two find the simulation
    running. *)
Lemma trajectories_follow_ticks_witness :
  ∃ s' h',
    run [Frame; TogglePause; Frame; TogglePause; Frame]
        (loaded_sim fresh_sim 1 literal_heap Dipole)
        (loaded_heap literal_heap Dipole Dipole_colors) = Some (s', h')
    ∧ length (trajectories s') = 2
    ∧ Forall (λ t, length t = 2) (trajectories s').
Proof.
  destruct (trajectories_follow_ticks fresh_sim (Some 1%Z) literal_heap
              (loaded_sim fresh_sim 1 literal_heap Dipole)
              (loaded_heap literal_heap Dipole Dipole_colors)
              [Frame; TogglePause; Frame; TogglePause; Frame])
    as (p & cs0 & s' & h' & cs' & _ & _ & Hcs0 & _ & Hrun & _ & _ & Hlen & Hall & _).
  - apply reset_simulation_Some.
    exists (mkPreset "Dipole" 1 1), Dipole, Dipole_colors.
    repeat split; done.
  - repeat constructor.
  - exists s', h'. split; [exact Hrun|].
    assert (cs0 = Dipole) as ->.
    { rewrite loaded_heap_charges in Hcs0. by injection Hcs0. }
    split; [exact Hlen|exact Hall].
Defined.

(** The dipole loaded twice. *)
Lemma preset_round_trip_witness :
  let s1 := loaded_sim fresh_sim 1 literal_heap Dipole in
  let h1 := loaded_heap literal_heap Dipole Dipole_colors in
  let s2 := loaded_sim s1 1 h1 Dipole in
  let h2 := loaded_heap h1 Dipole Dipole_colors in
  charge_arrays h2 !! charges s1 = Some Dipole
  ∧ charge_arrays h2 !! charges s2 = Some Dipole
  ∧ charge_arrays h2 !! 1 = Some Dipole
  ∧ charges s1 ≠ charges s2.
Proof.
  intros s1 h1 s2 h2.
  destruct (preset_round_trip fresh_sim s1 1%Z literal_heap s1 h1 s2 h2)
    as (p & cs & cols & Hp & Hcs & _ & H1 & H2 & H3 & _ & _ & _ & Hne & _).
  - reflexivity.
  - apply reset_simulation_Some.
    exists (mkPreset "Dipole" 1 1), Dipole, Dipole_colors.
    repeat split; done.
  - apply reset_simulation_Some.
    exists (mkPreset "Dipole" 1 1), Dipole, Dipole_colors.
    repeat split; done.
  - injection Hp as <-. simpl in Hcs.
    assert (cs = Dipole) as -> by (by injection Hcs).
    done.
Defined.

(** ** Loading a preset does not test the masses *)

Section Loading.
Context {F : Type} `{Scalar F}.
Implicit Types (self : ChargeSimulation F) (h : Heap F) (cs : list (Charge F)).


End Loading.



(** ** The first step of the "Dipole" preset *)

(** C1 does not hold as stated: the force on the first particle of the
    dipole is about -0.0562 along x (away from the second particle), its
    velocity after the step about -0.0281 and its x-position about 3.99986. *)
Lemma dipole_first_step_counterexample :
  ∃ f cs' c,
    compute_forces Dipole !! 0 = Some f
    ∧ update_physics Dipole (compute_forces Dipole) default_dt boundary = Some cs'
    ∧ cs' !! 0 = Some c
    ∧ first_step_as_specified f c = false
    ∧ between (-0.056176) (c0 f) (-0.056174) = true
    ∧ between (-0.028088) (c0 (vel c)) (-0.028087) = true
    ∧ between 3.999859 (c0 (pos c)) 3.999860 = true.
Proof.
  eexists _, _, _.
  split; [reflexivity|]. split; [reflexivity|]. split; [reflexivity|].
  repeat split; reflexivity.
Qed.

(** C1, as the code has it.  One tick of the dipole gives the first
    particle a force along the x axis of magnitude about 0.056175, which is
    [k_e * 5e-6 * 5e-6 / 2 ** 2], a velocity along the x axis of magnitude
    about 0.0280875 and an x-position at about 0.00014044 from 4; the other
    coordinates of the position stay at 5. *)
Theorem dipole_first_step :
  ∃ f cs' c,
    compute_forces Dipole !! 0 = Some f
    ∧ update_physics Dipole (compute_forces Dipole) default_dt boundary = Some cs'
    ∧ cs' !! 0 = Some c
    ∧ between 0.056174 (abs (c0 f)) 0.056176 = true
    ∧ between 0.056174 (abs (k_e * 5e-6 * 5e-6 / (2 * 2))) 0.056176 = true
    ∧ c1 f = 0%float ∧ c2 f = 0%float
    ∧ between 0.028087 (abs (c0 (vel c))) 0.028088 = true
    ∧ c1 (vel c) = 0%float ∧ c2 (vel c) = 0%float
    ∧ between 0.00014043 (abs (c0 (pos c) - 4)) 0.00014045 = true
    ∧ c1 (pos c) = 5%float ∧ c2 (pos c) = 5%float
    ∧ active c = true.
Proof.
  eexists _, _, _.
  split; [reflexivity|]. split; [reflexivity|]. split; [reflexivity|].
  repeat split; reflexivity.
Qed.

(** * Further properties *)

(** ** Runs without reset, as functions *)

Section Runs.
Context {F : Type} `{Scalar F}.
Implicit Types (self : ChargeSimulation F) (h : Heap F).
Implicit Types (cs : list (Charge F)) (c : Charge F).

Lemma stored_same self h cs :
  charge_arrays h !! charges self = Some cs → stored self h cs = h.
Proof.
  intros Hcs. unfold stored. rewrite insert_id by done. by destruct h.
Qed.

Lemma stored_stored self h cs cs' :
  stored self (stored self h cs) cs' = stored self h cs'.
Proof. unfold stored. simpl. by rewrite insert_insert_eq. Qed.

Lemma after_event_charges self cs e : charges (after_event self cs e).1 = charges self.
Proof. destruct e; simpl; try done. by destruct (running self). Qed.

Lemma after_event_length self cs e :
  length (after_event self cs e).2 = length cs.
Proof.
  destruct e; simpl; try done.
  destruct (running self); simpl; [apply length_tick_array|done].
Qed.

Lemma after_event_trajectories self cs e :
  length (trajectories self) = length cs →
  length (trajectories (after_event self cs e).1) = length cs.
Proof.
  intros Hlen. destruct e; simpl; try done.
  destruct (running self); simpl; [by rewrite length_recorded|done].
Qed.

Lemma handle_after_event self h cs e :
  is_reset e = false →
  charge_arrays h !! charges self = Some cs → cs ≠ [] →
  length (trajectories self) = length cs →
  handle self e h =
    Some ((after_event self cs e).1, stored self h (after_event self cs e).2).
Proof.
  intros He Hcs Hne Hlen. destruct e; try done; simpl.
  - destruct (running self) eqn:Hr; simpl.
    + rewrite (update_running self h cs) by done. by rewrite Hr.
    + by rewrite update_paused, stored_same.
  - by rewrite stored_same.
  - by rewrite stored_same.
Qed.

Lemma run_after_run es :
  Forall (λ e, is_reset e = false) es →
  ∀ self h cs,
    charge_arrays h !! charges self = Some cs → cs ≠ [] →
    length (trajectories self) = length cs →
    run es self h =
      Some ((after_run self cs es).1, stored self h (after_run self cs es).2).
Proof.
  induction 1 as [|e es He Hes IH]; intros self h cs Hcs Hne Hlen.
  - simpl. by rewrite stored_same.
  - change (run (e :: es) self h)
      with (bind (handle self e) (λ self, run es self) h).
    unfold bind. rewrite (handle_after_event self h cs) by done.
    pose proof (after_event_charges self cs e) as Hch.
    pose proof (after_event_length self cs e) as Hl.
    rewrite (IH _ _ (after_event self cs e).2).
    + simpl. f_equal. f_equal. unfold stored at 1 3. rewrite Hch.
      unfold stored. simpl. by rewrite insert_insert_eq.
    + unfold stored. simpl. rewrite Hch. apply lookup_insert_eq.
    + intros Hnil. rewrite Hnil in Hl. by destruct cs.
    + rewrite Hl. by apply after_event_trajectories.
Qed.

Lemma after_run_rel
    (R : ChargeSimulation F * list (Charge F) →
         ChargeSimulation F * list (Charge F) → Prop) :
  (∀ x, R x x) → (∀ x y z, R x y → R y z → R x z) →
  (∀ self cs e, length (trajectories self) = length cs →
                R (self, cs) (after_event self cs e)) →
  ∀ es self cs, length (trajectories self) = length cs →
                R (self, cs) (after_run self cs es).
Proof.
  intros Hrefl Htrans Hstep. induction es as [|e es IH]; intros self cs Hlen.
  - apply Hrefl.
  - simpl. eapply Htrans; [by apply (Hstep self cs e)|].
    rewrite (surjective_pairing (after_event self cs e)) at 1.
    apply IH. rewrite after_event_length. by apply after_event_trajectories.
Qed.

(** *** Charge and mass *)

Lemma tick_array_keeps cs dt i c :
  cs !! i = Some c →
  ∃ c', tick_array cs dt !! i = Some c' ∧ q c' = q c ∧ m c' = m c
        ∧ (active c' = true → active c = true).
Proof.
  intros Hc. eexists. split; [by apply tick_array_lookup|].
  destruct (active c) eqn:Hact.
  - rewrite euler_step_eq. by simpl.
  - repeat split. intros Ha. congruence.
Qed.

Lemma after_run_keeps es self cs :
  length (trajectories self) = length cs →
  ∀ i c, cs !! i = Some c →
    ∃ c', (after_run self cs es).2 !! i = Some c' ∧ q c' = q c ∧ m c' = m c
          ∧ (active c' = true → active c = true).
Proof.
  apply (after_run_rel (λ x y, ∀ i c, x.2 !! i = Some c →
    ∃ c', y.2 !! i = Some c' ∧ q c' = q c ∧ m c' = m c
          ∧ (active c' = true → active c = true))).
  - intros x i c Hc. by exists c.
  - intros x y z Hxy Hyz i c Hc.
    destruct (Hxy i c Hc) as (c1 & Hc1 & Hq1 & Hm1 & Ha1).
    destruct (Hyz i c1 Hc1) as (c2 & Hc2 & Hq2 & Hm2 & Ha2).
    exists c2. split; [done|]. split; [congruence|]. split; [congruence|auto].
  - clear. intros self cs e _ i c Hc. destruct e; simpl; try by exists c.
    destruct (running self); simpl; [by apply tick_array_keeps|by exists c].
Qed.

(** X1. In a run without reset no event changes the number of particles,
    the charge or the mass of a particle, and no particle that is inactive
    becomes active. *)
Theorem run_keeps_charge_and_mass self h cs es :
  charge_arrays h !! charges self = Some cs → cs ≠ [] →
  length (trajectories self) = length cs →
  Forall (λ e, is_reset e = false) es →
  ∃ s' h' cs',
    run es self h = Some (s', h')
    ∧ charge_arrays h' !! charges s' = Some cs'
    ∧ length cs' = length cs
    ∧ ∀ i c, cs !! i = Some c →
        ∃ c', cs' !! i = Some c' ∧ q c' = q c ∧ m c' = m c
              ∧ (active c' = true → active c = true).
Proof.
  intros Hcs Hne Hlen Hes. eexists _, _, _.
  split; [by apply run_after_run|]. split.
  - unfold stored. simpl.
    assert (∀ es self cs, charges (after_run self cs es).1 = charges self) as ->.
    { clear. induction es as [|e es IH]; intros self cs; [done|].
      simpl. by rewrite IH, after_event_charges. }
    apply lookup_insert_eq.
  - split; [|by apply after_run_keeps].
    clear Hcs Hne Hes. revert self cs Hlen.
    induction es as [|e es IH]; intros self cs Hlen; [done|]. simpl.
    rewrite IH; [apply after_event_length|].
    rewrite after_event_length. by apply after_event_trajectories.
Qed.

(** *** Trajectories *)

Lemma after_run_charges es self cs :
  charges (after_run self cs es).1 = charges self.
Proof.
  revert self cs. induction es as [|e es IH]; intros self cs; [done|].
  simpl. by rewrite IH, after_event_charges.
Qed.

Lemma run_no_reset_result self h cs es :
  charge_arrays h !! charges self = Some cs → cs ≠ [] →
  length (trajectories self) = length cs →
  Forall (λ e, is_reset e = false) es →
  ∃ s' h',
    run es self h = Some (s', h')
    ∧ s' = (after_run self cs es).1
    ∧ charge_arrays h' !! charges s' = Some (after_run self cs es).2.
Proof.
  intros Hcs Hne Hlen Hes. eexists _, _.
  split; [by apply run_after_run|]. split; [done|].
  unfold stored. simpl. rewrite after_run_charges. apply lookup_insert_eq.
Qed.

Lemma recorded_lookup cs (trs : list (list (Vec3 F))) i t c :
  trs !! i = Some t → cs !! i = Some c →
  recorded cs trs !! i = Some (t ++ [pos c]).
Proof.
  intros Ht Hc. unfold recorded. by rewrite list_lookup_imap, Ht, Hc.
Qed.

Lemma after_event_running self cs e :
  running (after_event self cs e).1 = running_after e (running self).
Proof.
  destruct e; simpl; try done. destruct (running self) eqn:Hr; simpl; done.
Qed.

(** The trajectory of particle [i] after one event. *)
Lemma after_event_trajectory self cs e i t :
  length (trajectories self) = length cs →
  trajectories self !! i = Some t →
  ∃ c', (after_event self cs e).2 !! i = Some c'
        ∧ trajectories (after_event self cs e).1 !! i =
            Some (if advances e (running self) then t ++ [pos c'] else t).
Proof.
  intros Hlen Ht.
  destruct (lookup_lt_is_Some_2 cs i) as [c Hc];
    [rewrite <-Hlen; by apply lookup_lt_Some in Ht|].
  destruct e; simpl; try by exists c.
  destruct (running self); simpl; [|by exists c].
  destruct (tick_array_keeps cs (dt self) i c Hc) as (c' & Hc' & _).
  exists c'. split; [done|]. by apply recorded_lookup.
Qed.

Lemma after_run_prefix es self cs :
  length (trajectories self) = length cs →
  ∀ i t, trajectories self !! i = Some t →
    ∃ t', trajectories (after_run self cs es).1 !! i = Some t'
          ∧ t `prefix_of` t'.
Proof.
  apply (after_run_rel (λ x y, ∀ i t, trajectories x.1 !! i = Some t →
    ∃ t', trajectories y.1 !! i = Some t' ∧ t `prefix_of` t')).
  - intros x i t Ht. by exists t.
  - intros x y z Hxy Hyz i t Ht.
    destruct (Hxy i t Ht) as (t1 & Ht1 & Hp1).
    destruct (Hyz i t1 Ht1) as (t2 & Ht2 & Hp2).
    exists t2. split; [done|]. by etrans.
  - clear. intros self cs e Hlen i t Ht.
    destruct (after_event_trajectory self cs e i t Hlen Ht) as (c' & _ & ->).
    eexists. split; [done|].
    destruct (advances e (running self)); [by apply prefix_app_r|done].
Qed.

Lemma after_run_trajectories es self cs :
  length (trajectories self) = length cs →
  length (trajectories (after_run self cs es).1) = length (trajectories self)
  ∧ length (after_run self cs es).2 = length cs.
Proof.
  revert self cs. induction es as [|e es IH]; intros self cs Hlen; [done|].
  simpl. destruct (IH (after_event self cs e).1 (after_event self cs e).2)
    as [-> ->].
  - rewrite after_event_length. by apply after_event_trajectories.
  - rewrite after_event_length, after_event_trajectories by done. done.
Qed.

(** X2. Trajectories are append-only: through a run without reset, what a
    trajectory holds at the start is kept, in order, at the front of what it
    holds at the end. *)
Theorem trajectories_append_only self h cs es :
  charge_arrays h !! charges self = Some cs → cs ≠ [] →
  length (trajectories self) = length cs →
  Forall (λ e, is_reset e = false) es →
  ∃ s' h',
    run es self h = Some (s', h')
    ∧ length (trajectories s') = length (trajectories self)
    ∧ ∀ i t, trajectories self !! i = Some t →
        ∃ t', trajectories s' !! i = Some t' ∧ t `prefix_of` t'.
Proof.
  intros Hcs Hne Hlen Hes.
  destruct (run_no_reset_result self h cs es) as (s' & h' & Hrun & -> & _);
    [done..|].
  exists (after_run self cs es).1, h'. split; [done|]. split.
  - by apply after_run_trajectories.
  - by apply after_run_prefix.
Qed.

Lemma after_event_tracks self cs e :
  length (trajectories self) = length cs →
  tracks cs (trajectories self) →
  tracks (after_event self cs e).2 (trajectories (after_event self cs e).1)
  ∧ (advances e (running self) = true →
     ∀ i t, trajectories (after_event self cs e).1 !! i = Some t → t ≠ []).
Proof.
  intros Hlen Htr. split.
  - intros i t c' Ht Hc' Hne.
    destruct (lookup_lt_is_Some_2 (trajectories self) i) as [t0 Ht0].
    { apply lookup_lt_Some in Hc'. rewrite after_event_length in Hc'. lia. }
    destruct (after_event_trajectory self cs e i t0 Hlen Ht0) as (c1 & Hc1 & Ht1).
    rewrite Hc' in Hc1. injection Hc1 as <-.
    rewrite Ht in Ht1. injection Ht1 as ->.
    destruct (advances e (running self)) eqn:Hadv; [by rewrite last_snoc|].
    destruct e; simpl in *; try by eapply Htr.
    rewrite Hadv in Hc'. by eapply Htr.
  - intros Hadv i t Ht.
    destruct (lookup_lt_is_Some_2 (trajectories self) i) as [t0 Ht0].
    { apply lookup_lt_Some in Ht.
      by rewrite after_event_trajectories, <-Hlen in Ht. }
    destruct (after_event_trajectory self cs e i t0 Hlen Ht0) as (c1 & _ & Ht1).
    rewrite Ht, Hadv in Ht1. injection Ht1 as ->. by destruct t0.
Qed.

Lemma after_run_tracks es self cs :
  length (trajectories self) = length cs →
  tracks cs (trajectories self) →
  tracks (after_run self cs es).2 (trajectories (after_run self cs es).1)
  ∧ (0 < advanced es (running self) →
     ∀ i t, trajectories (after_run self cs es).1 !! i = Some t → t ≠ []).
Proof.
  revert self cs. induction es as [|e es IH]; intros self cs Hlen Htr.
  - split; [done|]. simpl. lia.
  - change (after_run self cs (e :: es))
      with (after_run (after_event self cs e).1 (after_event self cs e).2 es).
    destruct (after_event_tracks self cs e Hlen Htr) as [Htr1 Hne1].
    assert (length (trajectories (after_event self cs e).1)
            = length (after_event self cs e).2) as Hlen1.
    { rewrite after_event_length. by apply after_event_trajectories. }
    destruct (IH _ _ Hlen1 Htr1) as [Htr2 Hne2]. split; [done|].
    rewrite advanced_cons, <-(after_event_running self cs e). intros Hadv i t Ht.
    destruct (advances e (running self)) eqn:Hadv1; [|apply (Hne2 ltac:(lia) i t Ht)].
    destruct (lookup_lt_is_Some_2 (trajectories (after_event self cs e).1) i)
      as [t1 Ht1].
    { apply lookup_lt_Some in Ht.
      by rewrite (proj1 (after_run_trajectories es _ _ Hlen1)) in Ht. }
    destruct (after_run_prefix es _ _ Hlen1 i t1 Ht1) as (t' & Ht' & [k ->]).
    rewrite Ht in Ht'. injection Ht' as ->.
    specialize (Hne1 eq_refl i t1 Ht1). by destruct t1.
Qed.

(** X3. The last point of a trajectory is where its particle is: if this
    holds of the trajectories that have an entry, it holds after every run
    without reset, and once a frame has advanced the simulation every
    trajectory has an entry. *)
Theorem trajectory_ends_at_particle self h cs es :
  charge_arrays h !! charges self = Some cs → cs ≠ [] →
  length (trajectories self) = length cs →
  Forall (λ e, is_reset e = false) es →
  tracks cs (trajectories self) →
  ∃ s' h' cs',
    run es self h = Some (s', h')
    ∧ charge_arrays h' !! charges s' = Some cs'
    ∧ tracks cs' (trajectories s')
    ∧ (0 < advanced es (running self) →
       ∀ i c, cs' !! i = Some c →
         ∃ t, trajectories s' !! i = Some t ∧ last t = Some (pos c)).
Proof.
  intros Hcs Hne Hlen Hes Htr.
  destruct (run_no_reset_result self h cs es) as (s' & h' & Hrun & -> & Harr);
    [done..|].
  destruct (after_run_tracks es self cs Hlen Htr) as [Htr' Hne'].
  destruct (after_run_trajectories es self cs Hlen) as [Hl1 Hl2].
  eexists _, _, _. split; [done|]. split; [done|]. split; [done|].
  intros Hadv i c Hc.
  destruct (lookup_lt_is_Some_2 (trajectories (after_run self cs es).1) i)
    as [t Ht].
  { apply lookup_lt_Some in Hc. lia. }
  exists t. split; [done|]. apply (Htr' i t c Ht Hc). by apply (Hne' Hadv i).
Qed.

Lemma after_event_inactive self cs e i c :
  cs !! i = Some c → active c = false →
  (after_event self cs e).2 !! i = Some c.
Proof.
  intros Hc Hact. destruct e; simpl; try done.
  destruct (running self); simpl; [|done].
  by rewrite (tick_array_lookup _ _ _ c), Hact.
Qed.

Lemma after_run_inactive es self cs i c t :
  length (trajectories self) = length cs →
  cs !! i = Some c → active c = false →
  trajectories self !! i = Some t →
  (after_run self cs es).2 !! i = Some c
  ∧ trajectories (after_run self cs es).1 !! i =
      Some (t ++ replicate (advanced es (running self)) (pos c)).
Proof.
  revert self cs t. induction es as [|e es IH]; intros self cs t Hlen Hc Hact Ht.
  - simpl. by rewrite app_nil_r.
  - change (after_run self cs (e :: es))
      with (after_run (after_event self cs e).1 (after_event self cs e).2 es).
    pose proof (after_event_inactive self cs e i c Hc Hact) as Hc1.
    destruct (after_event_trajectory self cs e i t Hlen Ht) as (c' & Hc' & Ht1).
    rewrite Hc1 in Hc'. injection Hc' as <-.
    destruct (IH _ _ _ ltac:(rewrite after_event_length;
                             by apply after_event_trajectories) Hc1 Hact Ht1)
      as [Hc2 Ht2].
    split; [done|]. rewrite Ht2, advanced_cons, (after_event_running self cs e).
    f_equal. destruct (advances e (running self)); [|done].
    by rewrite <-app_assoc.
Qed.

(** X4. Recording goes on for an inactive particle: in a run without reset
    its trajectory gains one entry per advanced frame, and every one of them
    is the position at which the particle stopped. *)
Theorem inactive_particle_repeats self h cs es i c t :
  charge_arrays h !! charges self = Some cs →
  length (trajectories self) = length cs →
  Forall (λ e, is_reset e = false) es →
  cs !! i = Some c → active c = false →
  trajectories self !! i = Some t →
  ∃ s' h',
    run es self h = Some (s', h')
    ∧ trajectories s' !! i =
        Some (t ++ replicate (advanced es (running self)) (pos c)).
Proof.
  intros Hcs Hlen Hes Hc Hact Ht.
  destruct (run_no_reset_result self h cs es) as (s' & h' & Hrun & -> & _);
    [done|by intros ->|done..|].
  eexists _, _. split; [done|].
  by apply (after_run_inactive es self cs i c t).
Qed.

End Runs.

(** ** Indexing the catalog *)

Lemma getitem_Some {A} (l : list A) (i : Z) (x : A) :
  getitem l i = Some x ↔
  (- Z.of_nat (length l) ≤ i < Z.of_nat (length l))%Z
  ∧ l !! Z.to_nat (i `mod` Z.of_nat (length l)) = Some x.
Proof.
  unfold getitem. destruct (Z.leb_spec 0 i) as [Hi|Hi].
  - split.
    + intros Hx. pose proof (lookup_lt_Some _ _ _ Hx) as Hlt.
      split; [lia|]. by rewrite Z.mod_small by lia.
    + intros [Hr Hx]. by rewrite Z.mod_small in Hx by lia.
  - destruct (Z.leb_spec (- Z.of_nat (length l)) i) as [Hlo|Hlo].
    + assert (i `mod` Z.of_nat (length l) = Z.of_nat (length l) + i)%Z as ->.
      { symmetry. apply (Z.mod_unique _ _ (-1)); lia. }
      split; [intros Hx; split; [lia|done]|by intros [_ Hx]].
    + split; [done|]. intros [Hr _]. lia.
Qed.

Lemma getitem_elem_of {A} (l : list A) (i : Z) (x : A) :
  getitem l i = Some x → x ∈ l.
Proof. intros [_ Hx]%getitem_Some. by eapply list_elem_of_lookup_2. Qed.

Lemma getitem_is_Some {A} (l : list A) (i : Z) :
  is_Some (getitem l i) ↔ (- Z.of_nat (length l) ≤ i < Z.of_nat (length l))%Z.
Proof.
  split.
  - intros [x Hx]. by apply getitem_Some in Hx as [Hr _].
  - intros Hr.
    destruct (lookup_lt_is_Some_2 l (Z.to_nat (i `mod` Z.of_nat (length l))))
      as [x Hx].
    { pose proof (Z.mod_pos_bound i (Z.of_nat (length l))). lia. }
    exists x. by apply getitem_Some.
Qed.

(** ** The life of a simulation: construction, events, resets *)

Section Lifecycle.
Context {F : Type} `{Scalar F}.
Implicit Types (self : ChargeSimulation F) (h : Heap F).
Implicit Types (cs : list (Charge F)) (ps : list Preset).

Lemma after_event_fields self cs e :
  presets (after_event self cs e).1 = presets self
  ∧ current_preset (after_event self cs e).1 = current_preset self
  ∧ colors (after_event self cs e).1 = colors self.
Proof. destruct e; simpl; try done. by destruct (running self). Qed.

(** A load keeps what [reached] states. *)
Lemma reached_load ps h self h' i p cs (cols : list (Color F)) :
  catalog_ok ps h → reached ps h self h' →
  getitem ps i = Some p →
  charge_arrays h' !! preset_charges p = Some cs →
  color_arrays h' !! preset_colors p = Some cols →
  cs ≠ [] → length cols = length cs →
  reached ps h (loaded_sim self i h' cs) (loaded_heap h' cs cols).
Proof.
  intros Hcat (Hps & Hidx & Hout & Hkeep & Hcol & Hwf) Hp Hcs Hcols Hne Hlc.
  assert (∀ l, l ∈ dom (charge_arrays h) → l ∈ dom (charge_arrays h')) as Hsub.
  { intros l Hl. apply elem_of_dom. rewrite Hkeep by done. by apply elem_of_dom. }
  assert (∀ l, l ∈ dom (color_arrays h) → l ∈ dom (color_arrays h')) as Hsubc.
  { intros l Hl. apply elem_of_dom. rewrite Hcol by done. by apply elem_of_dom. }
  unfold reached, loaded_sim, loaded_heap. simpl.
  split; [done|]. split; [by rewrite Hp|]. split.
  { intros Hin%Hsub. by apply (is_fresh (dom (charge_arrays h'))). }
  split.
  { intros l Hl. rewrite lookup_insert_ne; [by apply Hkeep|].
    intros <-. apply (is_fresh (dom (charge_arrays h'))). by apply Hsub. }
  split.
  { intros l Hl. rewrite lookup_insert_ne; [by apply Hcol|].
    intros <-. apply (is_fresh (dom (color_arrays h'))). by apply Hsubc. }
  exists cs. split; [apply lookup_insert_eq|]. split; [done|].
  split; [apply length_replicate|].
  exists cols. split; [apply lookup_insert_eq|done].
Qed.

(** What [reached] gives for the preset an index selects. *)
Lemma reached_preset ps h self h' i p :
  catalog_ok ps h → reached ps h self h' → getitem ps i = Some p →
  ∃ cs cols,
    charge_arrays h !! preset_charges p = Some cs
    ∧ charge_arrays h' !! preset_charges p = Some cs
    ∧ color_arrays h' !! preset_colors p = Some cols
    ∧ cs ≠ [] ∧ length cols = length cs.
Proof.
  intros Hcat (_ & _ & _ & Hkeep & Hcol & _) Hp.
  destruct (Hcat p (getitem_elem_of _ _ _ Hp))
    as (cs & cols & Hcs & Hcols & Hne & Hlc).
  exists cs, cols. split; [done|]. split.
  - rewrite Hkeep; [done|]. apply elem_of_dom. by eexists.
  - split; [|done]. rewrite Hcol; [done|]. apply elem_of_dom. by eexists.
Qed.

Lemma reached_handle ps h self h' e s'' h'' :
  catalog_ok ps h → reached ps h self h' →
  handle self e h' = Some (s'', h'') →
  reached ps h s'' h''.
Proof.
  intros Hcat Hre Hh.
  assert (∀ idx, reset_simulation self idx h' = Some (s'', h'') →
                 reached ps h s'' h'') as Hreset.
  { intros idx (p & cs & cols & Hp & Hcs & Hcols & Hne & -> & ->)%reset_simulation_Some.
    pose proof Hre as (Hps & Hre'). rewrite Hps in Hp.
    destruct (reached_preset ps h self h' _ p Hcat Hre Hp)
      as (cs1 & cols1 & _ & Hcs1 & Hcols1 & _ & Hlc).
    rewrite Hcs in Hcs1. rewrite Hcols in Hcols1.
    injection Hcs1 as <-. injection Hcols1 as <-.
    by apply (reached_load ps h self h' _ p). }
  destruct (is_reset e) eqn:He.
  { destruct e; try done; simpl in Hh; by eapply Hreset. }
  destruct Hre
    as (Hps & Hidx & Hout & Hkeep & Hcol & cs & Hcs & Hne & Hlen & Hcols).
  rewrite (handle_after_event self h' cs e) in Hh by done.
  injection Hh as <- <-.
  destruct (after_event_fields self cs e) as (Hps' & Hcur' & Hcolors').
  unfold reached. rewrite Hps', Hcur', Hcolors', after_event_charges.
  split; [done|]. split; [done|]. split; [done|]. unfold stored. simpl. split.
  { intros l Hl. rewrite lookup_insert_ne; [by apply Hkeep|]. by intros <-. }
  split; [done|].
  exists (after_event self cs e).2. split; [apply lookup_insert_eq|].
  pose proof (after_event_length self cs e) as Hl.
  split; [intros Hnil; rewrite Hnil in Hl; by destruct cs|].
  rewrite Hl. split; [by apply after_event_trajectories|done].
Qed.

Lemma reached_run ps h es :
  catalog_ok ps h →
  ∀ self h' s'' h'', reached ps h self h' →
    run es self h' = Some (s'', h'') → reached ps h s'' h''.
Proof.
  intros Hcat. induction es as [|e es IH]; intros self h' s'' h'' Hre; simpl.
  - by intros [= <- <-].
  - unfold bind. destruct (handle self e h') as [[s1 h1]|] eqn:Hh; [|done].
    apply IH. by eapply reached_handle.
Qed.

Lemma reached_init ps h s0 h0 :
  catalog_ok ps h → init ps h = Some (s0, h0) → reached ps h s0 h0.
Proof.
  intros Hcat (p & cs & cols & Hp & Hcs & Hcols & Hne & -> & ->)%init_Some.
  destruct (Hcat p (getitem_elem_of _ _ _ Hp))
    as (cs1 & cols1 & Hcs1 & Hcols1 & _ & Hlc).
  rewrite Hcs in Hcs1. rewrite Hcols in Hcols1.
  injection Hcs1 as <-. injection Hcols1 as <-.
  set (self := mkSim default_dt ps 0 0 0 [] false).
  unfold reached, loaded_sim, loaded_heap. simpl.
  split; [done|]. split; [by rewrite Hp|].
  split; [apply is_fresh|]. split.
  { intros l Hl. rewrite lookup_insert_ne; [done|].
    intros <-. by apply (is_fresh (dom (charge_arrays h))). }
  split.
  { intros l Hl. rewrite lookup_insert_ne; [done|].
    intros <-. by apply (is_fresh (dom (color_arrays h))). }
  exists cs. split; [apply lookup_insert_eq|]. split; [done|].
  split; [apply length_replicate|].
  exists cols. split; [apply lookup_insert_eq|done].
Qed.

(** An event that names a preset of the catalog does not raise. *)
Lemma reached_handle_total ps h self h' e :
  catalog_ok ps h → reached ps h self h' → event_ok (length ps) e →
  is_Some (handle self e h').
Proof.
  intros Hcat Hre Hok.
  assert (∀ i, is_Some (getitem ps i) →
               is_Some (reset_simulation self (Some i) h')) as Hreset.
  { intros i [p Hp].
    destruct (reached_preset ps h self h' i p)
      as (cs & cols & _ & Hcs & Hcols & Hne & _); [done..|].
    eexists (_, _). apply reset_simulation_Some. exists p, cs, cols.
    destruct Hre as (-> & _). by simpl. }
  destruct e; simpl.
  - destruct Hre as (_ & _ & _ & _ & _ & cs & Hcs & Hne & Hlen & _).
    destruct (running self) eqn:Hr.
    + by rewrite (update_running self h' cs).
    + by rewrite update_paused.
  - done.
  - done.
  - apply Hreset. by apply getitem_is_Some.
  - apply Hreset. by destruct Hre as (_ & Hidx & _).
Qed.

Lemma init_total ps h :
  ps ≠ [] → catalog_ok ps h → is_Some (init ps h).
Proof.
  intros Hne Hcat. destruct ps as [|p ps']; [done|].
  destruct (Hcat p) as (cs & cols & Hcs & Hcols & Hcsne & _);
    [apply list_elem_of_here|].
  eexists (_, _). apply init_Some. by exists p, cs, cols.
Qed.

Lemma reached_run_total ps h es :
  catalog_ok ps h → Forall (event_ok (length ps)) es →
  ∀ self h', reached ps h self h' → is_Some (run es self h').
Proof.
  intros Hcat. induction 1 as [|e es He Hes IH]; intros self h' Hre; [done|].
  destruct (reached_handle_total ps h self h' e Hcat Hre He) as [[s1 h1] Hh].
  simpl. unfold bind. rewrite Hh. apply IH. by eapply reached_handle.
Qed.

(** X5. With a catalog whose presets all have a non-empty charge array and
    one color per particle, nothing raises: the construction succeeds, and so
    does every sequence of frames, pauses, changes of [dt] by a value of the
    slider's signal, resets and loads of an index that Python accepts for the
    catalog.  The simulation is left with one trajectory and one color per
    particle, so the loop of [update] over the trajectory lines, of which
    there is one per color, finds [self.trajectories[i]] for each. *)
Theorem events_never_raise ps h es :
  ps ≠ [] → catalog_ok ps h →
  Forall (event_ok (length ps)) es →
  ∃ s0 h0 s' h' cs (cols : list (Color F)),
    init ps h = Some (s0, h0) ∧ run es s0 h0 = Some (s', h')
    ∧ charge_arrays h' !! charges s' = Some cs
    ∧ color_arrays h' !! colors s' = Some cols
    ∧ length (trajectories s') = length cs
    ∧ length cols = length cs.
Proof.
  intros Hne Hcat Hes.
  destruct (init_total ps h Hne Hcat) as [[s0 h0] Hinit].
  pose proof (reached_init ps h s0 h0 Hcat Hinit) as Hre0.
  destruct (reached_run_total ps h es Hcat Hes s0 h0 Hre0) as [[s' h'] Hrun].
  destruct (reached_run ps h es Hcat s0 h0 s' h' Hre0 Hrun)
    as (_ & _ & _ & _ & _ & cs & Hcs & _ & Hlen & cols & Hcols & Hlc).
  by exists s0, h0, s', h', cs, cols.
Qed.

(** X6. The reset button brings back the preset: after any events, frames
    and loads included, it leaves the simulation with a copy of the charges
    the current preset had when the simulation was constructed and with empty
    trajectories.  It keeps [dt] and the [running] flag as they are. *)
Theorem reset_button_restores ps h s0 h0 es s h1 :
  catalog_ok ps h →
  init ps h = Some (s0, h0) →
  run es s0 h0 = Some (s, h1) →
  ∃ p cs s' h2,
    getitem ps (current_preset s) = Some p
    ∧ charge_arrays h !! preset_charges p = Some cs
    ∧ handle s ResetButton h1 = Some (s', h2)
    ∧ charge_arrays h2 !! charges s' = Some cs
    ∧ trajectories s' = replicate (length cs) []
    ∧ dt s' = dt s ∧ running s' = running s
    ∧ current_preset s' = current_preset s.
Proof.
  intros Hcat Hinit Hrun.
  pose proof (reached_init ps h s0 h0 Hcat Hinit) as Hre0.
  pose proof (reached_run ps h es Hcat s0 h0 s h1 Hre0 Hrun) as Hre.
  destruct Hre as (Hps & [p Hp] & Hrest).
  destruct (reached_preset ps h s h1 (current_preset s) p)
    as (cs & cols & Hcs & Hcs1 & Hcols1 & Hne & _); [done|by split|done|].
  exists p, cs. eexists _, _. split; [done|]. split; [done|]. split.
  { simpl. apply reset_simulation_Some. exists p, cs, cols.
    simpl. by rewrite Hps. }
  simpl. split; [apply lookup_insert_eq|]. done.
Qed.

(** X7. [reset_simulation(i)] follows Python's indexing of the catalog of
    [n] presets: it raises exactly when [i] is outside [-n, n), and
    otherwise it loads the preset at position [i mod n] (the last one for
    [-1]) and keeps [i] itself as the current index. *)
Theorem preset_index_semantics self h (i : Z) :
  catalog_ok (presets self) h →
  (is_Some (reset_simulation self (Some i) h)
   ↔ (- Z.of_nat (length (presets self)) ≤ i
      < Z.of_nat (length (presets self)))%Z)
  ∧ ∀ s' h', reset_simulation self (Some i) h = Some (s', h') →
      current_preset s' = i
      ∧ ∃ p cs,
          presets self
            !! Z.to_nat (i `mod` Z.of_nat (length (presets self))) = Some p
          ∧ charge_arrays h !! preset_charges p = Some cs
          ∧ charge_arrays h' !! charges s' = Some cs.
Proof.
  intros Hcat. split; [split|].
  - intros [[s' h'] (p & _ & _ & Hp & _)%reset_simulation_Some].
    simpl in Hp. apply getitem_is_Some. by eexists.
  - intros [p Hp]%getitem_is_Some.
    destruct (Hcat p (getitem_elem_of _ _ _ Hp))
      as (cs & cols & Hcs & Hcols & Hne & _).
    eexists (_, _). apply reset_simulation_Some. by exists p, cs, cols.
  - intros s' h' (p & cs & cols & Hp & Hcs & _ & _ & -> & ->)%reset_simulation_Some.
    simpl in *. split; [done|]. exists p, cs.
    apply getitem_Some in Hp as [_ Hp]. split; [done|]. split; [done|].
    apply lookup_insert_eq.
Qed.

(** X8. A new simulation is paused: whatever the number of frames, they
    leave the simulation and the store exactly as the construction left
    them. *)
Theorem new_simulation_is_paused ps h s0 h0 (n : nat) :
  init ps h = Some (s0, h0) →
  running s0 = false
  ∧ run (replicate n Frame) s0 h0 = Some (s0, h0).
Proof.
  intros (p & cs & cols & _ & _ & _ & _ & -> & ->)%init_Some.
  split; [done|]. induction n as [|n IH]; [done|].
  simpl. unfold bind. by rewrite update_paused.
Qed.

End Lifecycle.

Lemma literal_catalog_ok : catalog_ok literal_presets literal_heap.
Proof.
  intros pr Hpr. unfold literal_presets in Hpr.
  rewrite !elem_of_cons, elem_of_nil in Hpr.
  destruct Hpr as [->|[->|[->|[]]]]; eexists _, _;
    (split; [reflexivity|]); (split; [reflexivity|]); done.
Qed.

(** The three literal presets: construction, a few frames, a load by a
    negative index and a reset. *)
Lemma events_never_raise_witness :
  ∃ s0 h0 s' h' cs (cols : list (Color float)),
    init literal_presets literal_heap = Some (s0, h0)
    ∧ run [TogglePause; Frame; LoadPreset (-1); Frame; UpdateDt 3; ResetButton]
          s0 h0 = Some (s', h')
    ∧ charge_arrays h' !! charges s' = Some cs
    ∧ color_arrays h' !! colors s' = Some cols
    ∧ length (trajectories s') = length cs
    ∧ length cols = length cs.
Proof.
  apply (events_never_raise literal_presets literal_heap);
    [done|apply literal_catalog_ok|].
  repeat constructor; unfold index_ok; simpl; lia.
Defined.

(** ** What the force engine reads *)

Section ForceInputs.
Context {F : Type} `{Scalar F}.
Implicit Types (cs : list (Charge F)) (ci cj ck c : Charge F) (f : Vec3 F).

Lemma pair_term_ext ci cj ci' cj' :
  displacement ci cj = displacement ci' cj' →
  q ci = q ci' → q cj = q cj' →
  pair_term ci cj = pair_term ci' cj'.
Proof.
  intros Hr Hqi Hqj. unfold pair_term, force_mag. by rewrite Hr, Hqi, Hqj.
Qed.

(** Two arrays with the same flags and the same terms for all pairs have
    the same forces. *)
Lemma compute_forces_ext cs cs' :
  Forall2 (λ c c', active c = active c') cs cs' →
  (∀ i j ci cj ci' cj',
     cs !! i = Some ci → cs' !! i = Some ci' →
     cs !! j = Some cj → cs' !! j = Some cj' →
     pair_term ci cj = pair_term ci' cj') →
  compute_forces cs = compute_forces cs'.
Proof.
  intros Hact Hterm.
  pose proof (Forall2_length _ _ _ Hact) as Hlen.
  apply list_eq. intros k.
  destruct (decide (k < length cs)) as [Hk|Hk]; cycle 1.
  { rewrite !lookup_ge_None_2; [done|..]; rewrite length_compute_forces; lia. }
  rewrite !compute_forces_lookup by lia. f_equal. unfold force_on.
  destruct (lookup_lt_is_Some_2 cs k Hk) as [ck Hck].
  destruct (Forall2_lookup_l _ _ _ _ _ Hact Hck) as (ck' & Hck' & Hak).
  rewrite Hck, Hck', <-Hak, <-Hlen. destruct (active ck); [|done].
  assert (∀ x, match cs !! x, cs' !! x with
               | Some cx, Some cx' => active cx = active cx'
               | None, None => True
               | _, _ => False
               end) as Hx.
  { intros x. destruct (cs !! x) as [cx|] eqn:Hcx.
    - by destruct (Forall2_lookup_l _ _ _ _ _ Hact Hcx) as (cx' & -> & ?).
    - apply lookup_ge_None in Hcx. rewrite lookup_ge_None_2 by lia. done. }
  rewrite (foldl_seq_ext (received cs ck) (received cs' ck')).
  - apply foldl_seq_ext. intros g x _. unfold exerted. specialize (Hx x).
    destruct (cs !! x) as [cx|] eqn:Hcx, (cs' !! x) as [cx'|] eqn:Hcx';
      try done.
    rewrite <-Hx. destruct (active cx); [|done].
    by rewrite (Hterm k x ck cx ck' cx').
  - intros g x _. unfold received. specialize (Hx x).
    destruct (cs !! x) as [cx|] eqn:Hcx, (cs' !! x) as [cx'|] eqn:Hcx';
      try done.
    rewrite <-Hx. destruct (active cx); [|done].
    by rewrite (Hterm x k cx ck cx' ck').
Qed.

(** X9. The forces depend on positions, charges and flags only: two
    arrays that agree on these, whatever their velocities and masses, get the
    same forces. *)
Theorem forces_ignore_velocity_and_mass cs cs' :
  Forall2 same_source cs cs' → compute_forces cs = compute_forces cs'.
Proof.
  intros Hsame. apply compute_forces_ext.
  - eapply Forall2_impl; [exact Hsame|]. by intros c c' (_ & _ & Ha).
  - intros i j ci cj ci' cj' Hi Hi' Hj Hj'.
    destruct (Forall2_lookup_lr _ _ _ _ _ _ Hsame Hi Hi') as (Hpi & Hqi & _).
    destruct (Forall2_lookup_lr _ _ _ _ _ _ Hsame Hj Hj') as (Hpj & Hqj & _).
    apply pair_term_ext; [|done..]. unfold displacement. by rewrite Hpi, Hpj.
Qed.

(** X10. Without a pair of active particles there is no force: when at
    most one particle is active (none, or an empty array), every force is the
    zero vector. *)
Theorem no_pair_no_force cs :
  (∀ i j ci cj, i ≠ j → cs !! i = Some ci → cs !! j = Some cj →
                active ci = false ∨ active cj = false) →
  compute_forces cs = replicate (length cs) zero3.
Proof.
  intros Hone. apply list_eq. intros k.
  destruct (decide (k < length cs)) as [Hk|Hk]; cycle 1.
  { rewrite !lookup_ge_None_2;
      [done|rewrite length_replicate; lia|rewrite length_compute_forces; lia]. }
  rewrite compute_forces_lookup, lookup_replicate_2 by done. f_equal.
  destruct (lookup_lt_is_Some_2 cs k Hk) as [ck Hck].
  destruct (active ck) eqn:Hact; [|by apply (force_on_inactive cs k ck)].
  apply (force_on_alone cs k ck Hck). intros j cj Hj Hjk.
  destruct (Hone j k cj ck Hjk Hj Hck); congruence.
Qed.

End ForceInputs.

(** The dipole at rest and the dipole with other velocities and masses. *)
Lemma forces_ignore_velocity_and_mass_witness :
  compute_forces Dipole
  = compute_forces
      [ (particle (4.0, 5.0, 5.0) (1.0, -2.0, 3.0) 5e-6 7e-2 true)%float;
        (particle (6.0, 5.0, 5.0) (0.0, 40.0, 0.0) (-5e-6) 1e-3 true)%float ].
Proof.
  apply forces_ignore_velocity_and_mass. repeat constructor.
Defined.

(** One active particle beside an inactive one. *)
Lemma no_pair_no_force_witness :
  compute_forces [Dipole_plus; gone_particle] = [zero3; zero3].
Proof.
  apply (no_pair_no_force [Dipole_plus; gone_particle]).
  intros [|[|i]] [|[|j]] ci cj Hij Hi Hj; try done;
    injection Hi as <-; injection Hj as <-; auto.
Defined.

(** ** Further concrete runs in binary64 *)

(** Two frames, with a pause and a change of [dt] between them, on the
    array whose second particle is inactive. *)
Lemma run_keeps_charge_and_mass_witness :
  ∃ s' h' cs',
    run [Frame; UpdateDt 4; TogglePause; Frame; TogglePause; Frame]
        half_gone_sim half_gone_heap = Some (s', h')
    ∧ charge_arrays h' !! charges s' = Some cs'
    ∧ length cs' = 2
    ∧ ∀ i c, [Dipole_plus; gone_particle] !! i = Some c →
        ∃ c', cs' !! i = Some c' ∧ q c' = q c ∧ m c' = m c
              ∧ (active c' = true → active c = true).
Proof.
  apply (run_keeps_charge_and_mass half_gone_sim half_gone_heap
           [Dipole_plus; gone_particle]);
    try reflexivity; [done|].
  repeat constructor.
Defined.

Lemma trajectories_append_only_witness :
  ∃ s' h',
    run [Frame; UpdateDt 4; Frame] half_gone_sim half_gone_heap = Some (s', h')
    ∧ length (trajectories s') = 2
    ∧ ∀ i t, [[]; []] !! i = Some t →
        ∃ t', trajectories s' !! i = Some t' ∧ t `prefix_of` t'.
Proof.
  apply (trajectories_append_only half_gone_sim half_gone_heap
           [Dipole_plus; gone_particle]);
    try reflexivity; [done|].
  repeat constructor.
Defined.

Lemma trajectory_ends_at_particle_witness :
  ∃ s' h' cs',
    run [Frame; UpdateDt 4; Frame] half_gone_sim half_gone_heap = Some (s', h')
    ∧ charge_arrays h' !! charges s' = Some cs'
    ∧ tracks cs' (trajectories s')
    ∧ ∀ i c, cs' !! i = Some c →
        ∃ t, trajectories s' !! i = Some t ∧ last t = Some (pos c).
Proof.
  destruct (trajectory_ends_at_particle half_gone_sim half_gone_heap
              [Dipole_plus; gone_particle] [Frame; UpdateDt 4; Frame])
    as (s' & h' & cs' & Hrun & Hcs' & Htr & Hlast);
    try reflexivity; [done|repeat constructor| |].
  - intros [|[|i]] t c Ht Hc Hne; unfold half_gone_sim in Ht; simpl in Ht;
      by simplify_eq.
  - exists s', h', cs'. repeat split; try done. apply Hlast. simpl. lia.
Defined.

(** The inactive particle of that array over two advanced frames. *)
Lemma inactive_particle_repeats_witness :
  ∃ s' h',
    run [Frame; UpdateDt 4; Frame] half_gone_sim half_gone_heap = Some (s', h')
    ∧ trajectories s' !! 1 = Some [pos gone_particle; pos gone_particle].
Proof.
  apply (inactive_particle_repeats half_gone_sim half_gone_heap
           [Dipole_plus; gone_particle] [Frame; UpdateDt 4; Frame]
           1 gone_particle []);
    try reflexivity.
  repeat constructor.
Defined.

(** The dipole is loaded and advanced by a frame; the reset button then
    brings back the charges of a preset of the catalog. *)
Lemma reset_button_restores_witness :
  ∃ s h1 p cs s' h2,
    run [TogglePause; LoadPreset 1; Frame]
        (loaded_sim (mkSim default_dt literal_presets 0 0 0 [] false) 0
                    literal_heap Orbital)
        (loaded_heap literal_heap Orbital Orbital_colors) = Some (s, h1)
    ∧ getitem literal_presets (current_preset s) = Some p
    ∧ charge_arrays literal_heap !! preset_charges p = Some cs
    ∧ handle s ResetButton h1 = Some (s', h2)
    ∧ charge_arrays h2 !! charges s' = Some cs
    ∧ trajectories s' = replicate (length cs) [].
Proof.
  set (s0 := loaded_sim (mkSim default_dt literal_presets 0 0 0 [] false) 0
                        literal_heap Orbital).
  set (h0 := loaded_heap literal_heap Orbital Orbital_colors).
  assert (init literal_presets literal_heap = Some (s0, h0)) as Hinit.
  { apply init_Some. exists (mkPreset "Orbital" 0 0), Orbital, Orbital_colors.
    repeat split; done. }
  destruct (reached_run_total literal_presets literal_heap
              [TogglePause; LoadPreset 1; Frame] literal_catalog_ok)
    with (self := s0) (h' := h0) as [[s h1] Hrun].
  { repeat constructor; unfold index_ok; simpl; lia. }
  { by apply reached_init; [apply literal_catalog_ok|]. }
  destruct (reset_button_restores literal_presets literal_heap s0 h0
              [TogglePause; LoadPreset 1; Frame] s h1
              literal_catalog_ok Hinit Hrun)
    as (p & cs & s' & h2 & Hp & Hcs & Hh & Hcs' & Htr & _).
  by exists s, h1, p, cs, s', h2.
Defined.

(** The index [-1] in the catalog of three presets. *)
Lemma preset_index_semantics_witness :
  (is_Some (reset_simulation fresh_sim (Some (-1)%Z) literal_heap)
   ↔ (- 3 ≤ -1 < 3)%Z)
  ∧ ∀ s' h', reset_simulation fresh_sim (Some (-1)%Z) literal_heap
             = Some (s', h') →
      current_preset s' = (-1)%Z
      ∧ ∃ p cs,
          literal_presets !! 2 = Some p
          ∧ charge_arrays literal_heap !! preset_charges p = Some cs
          ∧ charge_arrays h' !! charges s' = Some cs.
Proof.
  apply (preset_index_semantics fresh_sim literal_heap (-1)).
  apply literal_catalog_ok.
Defined.

(** Five frames after the construction from the three literal presets. *)
Lemma new_simulation_is_paused_witness :
  let s0 := loaded_sim (mkSim default_dt literal_presets 0 0 0 [] false) 0
                       literal_heap Orbital in
  let h0 := loaded_heap literal_heap Orbital Orbital_colors in
  running s0 = false
  ∧ run [Frame; Frame; Frame; Frame; Frame] s0 h0 = Some (s0, h0).
Proof.
  intros s0 h0.
  apply (new_simulation_is_paused literal_presets literal_heap s0 h0 5).
  apply init_Some. exists (mkPreset "Orbital" 0 0), Orbital, Orbital_colors.
  repeat split; done.
Defined.

(** ** A preset without particles *)

Section EmptyPreset.
Context {F : Type} `{Scalar F}.
Implicit Types (self : ChargeSimulation F) (h : Heap F).

(** X11. A preset whose charge array is empty cannot be loaded:
    [reset_simulation] raises on it (the maximum of the empty mass array),
    and so does the construction when it is the first preset. *)
Theorem empty_preset_raises self idx h p :
  getitem (presets self) (default (current_preset self) idx) = Some p →
  charge_arrays h !! preset_charges p = Some [] →
  reset_simulation self idx h = None
  ∧ (default (current_preset self) idx = 0%Z → init (presets self) h = None).
Proof.
  intros Hp Hcs. split.
  - destruct (reset_simulation self idx h) as [[s' h']|] eqn:Hr; [|done].
    apply reset_simulation_Some in Hr
      as (p' & cs & cols & Hp' & Hcs' & _ & Hne & _).
    congruence.
  - intros H0. rewrite H0 in Hp.
    destruct (init (presets self) h) as [[s' h']|] eqn:Hr; [|done].
    apply init_Some in Hr as (p' & cs & cols & Hp' & Hcs' & _ & Hne & _).
    congruence.
Qed.

End EmptyPreset.

Lemma empty_preset_raises_witness :
  reset_simulation no_particles_sim None no_particles_heap = None
  ∧ (0 = 0 → init no_particles_presets no_particles_heap = None)%Z.
Proof.
  apply (empty_preset_raises no_particles_sim None no_particles_heap
           (mkPreset "Empty" 0 0)); reflexivity.
Defined.

(** ** The time-step slider in binary64 *)

(** X12. The slider and [dt] agree, in binary64: for every position [v] of
    the slider, from 1 to 20, [update_dt(v)] stores a [dt] between 0.0005 and
    0.01 from which [int(dt * 2000)] gives [v] back; and the default [dt]
    puts the slider at 10. *)
Theorem slider_round_trip (self : ChargeSimulation float) h (v : Z) :
  (1 ≤ v ≤ 20)%Z →
  ∃ s', handle self (UpdateDt v) h = Some (s', h)
    ∧ slider_value (dt s') = Some v
    ∧ (0.0005 <=? dt s')%float = true ∧ (dt s' <=? 0.01)%float = true
    ∧ slider_value default_dt = Some 10%Z.
Proof.
  intros Hv. eexists. split; [reflexivity|]. simpl.
  assert (v ∈ (seqZ 1 20)) as Hin by (apply elem_of_seqZ; lia).
  revert Hin. generalize v. apply Forall_forall.
  repeat (constructor; [by vm_compute|]). constructor.
Qed.

Lemma slider_round_trip_witness :
  ∃ s', handle fresh_sim (UpdateDt 7) literal_heap = Some (s', literal_heap)
    ∧ slider_value (dt s') = Some 7%Z
    ∧ (0.0005 <=? dt s')%float = true ∧ (dt s' <=? 0.01)%float = true
    ∧ slider_value default_dt = Some 10%Z.
Proof. apply (slider_round_trip fresh_sim literal_heap 7). lia. Defined.

(** ** Signs and coincident particles in binary64 *)

Lemma binary_round_aux_signed prec emax s m e l :
  sf_signed s (binary_round_aux prec emax s m e l).
Proof.
  unfold binary_round_aux.
  destruct (shr_fexp prec emax m e l) as [mrs' e'].
  destruct (shr_fexp prec emax _ e' loc_Exact) as [mrs'' e''].
  destruct (shr_m mrs''); [done| |done].
  by destruct (Z.leb _ _).
Qed.

Lemma binary_round_signed prec emax s m e :
  sf_signed s (binary_round prec emax s m e).
Proof.
  unfold binary_round. destruct (shl_align _ _ _) as [mz ez].
  apply binary_round_aux_signed.
Qed.

Lemma SFmul_signed prec emax sx sy x y :
  sf_signed sx x → sf_signed sy y →
  sf_signed (xorb sx sy) (SFmul prec emax x y).
Proof.
  destruct x as [s|s| |s m e], y as [s'|s'| |s' m' e']; simpl;
    try done; try (by intros -> ->).
  intros -> ->. apply binary_round_aux_signed.
Qed.

Lemma SFdiv_signed prec emax sx sy x y :
  sf_signed sx x → sf_signed sy y →
  sf_signed (xorb sx sy) (SFdiv prec emax x y).
Proof.
  destruct x as [s|s| |s m e], y as [s'|s'| |s' m' e']; simpl;
    try done; try (by intros -> ->).
  intros -> ->. destruct (SFdiv_core_binary _ _ _ _ _ _) as [[mz ez] lz].
  apply binary_round_aux_signed.
Qed.

Lemma SFadd_signed prec emax x y :
  sf_signed false x → sf_signed false y →
  sf_signed false (SFadd prec emax x y).
Proof.
  destruct x as [s|s| |s m e], y as [s'|s'| |s' m' e']; simpl;
    try done; try (by intros -> ->).
  intros -> ->. simpl. apply binary_round_signed.
Qed.

Lemma SFsqrt_signed prec emax x :
  sf_signed false x → sf_signed false (SFsqrt prec emax x).
Proof.
  destruct x as [s|s| |s m e]; simpl; try done; try (by intros ->).
  intros ->. destruct (SFsqrt_core_binary _ _ _ _) as [[mz ez] lz].
  apply binary_round_aux_signed.
Qed.

Lemma float_square_signed (x : float) : sf_signed false (Prim2SF (x * x)).
Proof.
  rewrite mul_spec.
  assert (∃ s, sf_signed s (Prim2SF x)) as [s Hs].
  { destruct (Prim2SF x) as [s|s| |s m e];
      [by exists s|by exists s|by exists false|by exists s]. }
  pose proof (SFmul_signed prec emax s s _ _ Hs Hs) as Hmul.
  by rewrite xorb_nilpotent in Hmul.
Qed.

Lemma float_distance_signed (r : Vec3 float) :
  sf_signed false (Prim2SF (distance r)).
Proof.
  unfold distance.
  change (sf_signed false
            (Prim2SF (PrimFloat.sqrt (c0 r * c0 r + c1 r * c1 r + c2 r * c2 r)
                      + 1e-14)%float)).
  rewrite add_spec. apply SFadd_signed; [|done].
  rewrite sqrt_spec. apply SFsqrt_signed.
  rewrite !add_spec.
  repeat apply SFadd_signed; apply float_square_signed.
Qed.

Lemma float_force_mag_signed (ci cj : Charge float) si sj :
  sf_signed si (Prim2SF (q ci)) → sf_signed sj (Prim2SF (q cj)) →
  sf_signed (xorb si sj) (Prim2SF (force_mag ci cj)).
Proof.
  intros Hi Hj. unfold force_mag.
  set (d := distance (displacement ci cj)).
  change (sf_signed (xorb si sj)
            (Prim2SF (8.988e9 * q ci * q cj / (d * (d * d)))%float)).
  rewrite div_spec, !mul_spec.
  pose proof (float_distance_signed (displacement ci cj)) as Hd. fold d in Hd.
  pose proof (SFmul_signed prec emax false false _ _ Hd
                (SFmul_signed prec emax false false _ _ Hd Hd)) as Hd3.
  assert (sf_signed false (Prim2SF 8.988e9)) as Hk by done.
  pose proof (SFdiv_signed prec emax _ _ _ _
                (SFmul_signed prec emax _ _ _ _
                   (SFmul_signed prec emax _ _ _ _ Hk Hi) Hj) Hd3) as Hdiv.
  simpl in Hdiv. by rewrite xorb_false_r in Hdiv.
Qed.

Lemma float_positive_signed (x : float) :
  PrimFloat.ltb 0 x = true → sf_signed false (Prim2SF x).
Proof.
  rewrite ltb_spec, Prim2SF_zero. unfold SFltb.
  by destruct (Prim2SF x) as [s|[]| |[] m e].
Qed.

Lemma float_negative_signed (x : float) :
  PrimFloat.ltb x 0 = true → sf_signed true (Prim2SF x).
Proof.
  rewrite ltb_spec, Prim2SF_zero. unfold SFltb.
  by destruct (Prim2SF x) as [s|[]| |[] m e].
Qed.

Lemma float_signed_not_negative (x : float) :
  sf_signed false (Prim2SF x) → PrimFloat.ltb x 0 = false.
Proof.
  rewrite ltb_spec, Prim2SF_zero. unfold SFltb.
  by destruct (Prim2SF x) as [s|[]| |[] m e].
Qed.

Lemma float_signed_not_positive (x : float) :
  sf_signed true (Prim2SF x) → PrimFloat.ltb 0 x = false.
Proof.
  rewrite ltb_spec, Prim2SF_zero. unfold SFltb.
  by destruct (Prim2SF x) as [s|[]| |[] m e].
Qed.

(** X14. The sign of the force in binary64.  The coefficient [force_mag]
    that multiplies [pos_j - pos_i] in the force on particle [i] is never
    negative when the two charges have the same sign, and never positive when
    they have opposite signs.  When [i < j] are the only active particles the
    force on [i] is [0 + force_mag * (pos_j - pos_i)] and the force on [j] is
    [0 - force_mag * (pos_j - pos_i)]: as the code computes it, a charge is
    never pushed away from one of the same sign, and never pulled toward one
    of the opposite sign. *)
Theorem force_direction (cs : list (Charge float)) i j ci cj :
  i < j → cs !! i = Some ci → cs !! j = Some cj →
  active ci = true → active cj = true →
  (∀ k ck, cs !! k = Some ck → k ≠ i → k ≠ j → active ck = false) →
  compute_forces cs !! i
    = Some (vadd zero3 (scale (force_mag ci cj) (vsub (pos cj) (pos ci))))
  ∧ compute_forces cs !! j
    = Some (vsub zero3 (scale (force_mag ci cj) (vsub (pos cj) (pos ci))))
  ∧ force_mag ci cj
    = (8.988e9 * q ci * q cj
       / float_pow (PrimFloat.sqrt
                      (c0 (vsub (pos cj) (pos ci)) * c0 (vsub (pos cj) (pos ci))
                       + c1 (vsub (pos cj) (pos ci)) * c1 (vsub (pos cj) (pos ci))
                       + c2 (vsub (pos cj) (pos ci)) * c2 (vsub (pos cj) (pos ci)))
                    + 1e-14) 3)%float
  ∧ (like_signs (q ci) (q cj) = true →
     PrimFloat.ltb (force_mag ci cj) 0 = false)
  ∧ (opposite_signs (q ci) (q cj) = true →
     PrimFloat.ltb 0 (force_mag ci cj) = false).
Proof.
  intros Hij Hi Hj Hai Haj Hothers.
  pose proof (lookup_lt_Some _ _ _ Hj) as Hlen.
  rewrite !compute_forces_lookup by lia.
  rewrite (force_on_first_of_pair cs i j ci cj) by done.
  rewrite (force_on_second_of_pair cs i j ci cj) by done.
  split; [done|]. split; [done|]. split; [done|]. split.
  - unfold like_signs.
    intros [[Hqi Hqj]%andb_true_iff|[Hqi Hqj]%andb_true_iff]%orb_true_iff;
      apply float_signed_not_negative.
    + apply (float_force_mag_signed ci cj false false);
        by apply float_positive_signed.
    + apply (float_force_mag_signed ci cj true true);
        by apply float_negative_signed.
  - unfold opposite_signs.
    intros [[Hqi Hqj]%andb_true_iff|[Hqi Hqj]%andb_true_iff]%orb_true_iff;
      apply float_signed_not_positive.
    + apply (float_force_mag_signed ci cj false true);
        [by apply float_positive_signed|by apply float_negative_signed].
    + apply (float_force_mag_signed ci cj true false);
        [by apply float_negative_signed|by apply float_positive_signed].
Qed.

(** The dipole: two charges of opposite signs. *)
Lemma force_direction_witness :
  compute_forces Dipole !! 0
    = Some (vadd zero3 (scale (force_mag Dipole_plus Dipole_minus)
                              (vsub (pos Dipole_minus) (pos Dipole_plus))))
  ∧ compute_forces Dipole !! 1
    = Some (vsub zero3 (scale (force_mag Dipole_plus Dipole_minus)
                              (vsub (pos Dipole_minus) (pos Dipole_plus))))
  ∧ PrimFloat.ltb 0 (force_mag Dipole_plus Dipole_minus) = false.
Proof.
  destruct (force_direction Dipole 0 1 Dipole_plus Dipole_minus)
    as (Hi & Hj & _ & _ & Hopp); try reflexivity; [lia| |].
  - intros [|[|k]] ck Hk; by try done.
  - split; [exact Hi|]. split; [exact Hj|]. apply Hopp. reflexivity.
Defined.

Lemma float_sub_diag (x : float) : is_finite x = true → (x - x)%float = 0%float.
Proof.
  intros Hfin%float_finite_spec. apply Prim2SF_inj.
  rewrite sub_spec, Prim2SF_zero.
  destruct Hfin as [[s ->]|(s & m & e & ->)]; [by destruct s|].
  unfold SF64sub, SFsub. by rewrite Z.sub_diag.
Qed.

Lemma float_mul_zero_r (x : float) : is_finite x = true → float_eq (x * 0) 0.
Proof.
  intros Hfin%float_finite_spec. apply float_eq_spec.
  rewrite mul_spec, Prim2SF_zero.
  destruct Hfin as [[s ->]|(s & m & e & ->)]; right; split; eexists; reflexivity.
Qed.

(** X15. Two particles at the same place, in binary64.  When the
    coordinates are finite the displacement is the zero vector and the
    distance used is the softening term [1e-14] itself, so that the divisor
    [dist**3] is not zero; and when [force_mag] is finite the term
    [force_mag * r] of the pair is numerically the zero vector (each
    component is [0.0] or [-0.0]). *)
Theorem coincident_particles (ci cj : Charge float) :
  pos ci = pos cj →
  Forall (λ x, is_finite x = true) (coords (pos ci)) →
  displacement ci cj = zero3
  ∧ distance (displacement ci cj) = 1e-14%float
  ∧ PrimFloat.ltb 0 (float_pow (distance (displacement ci cj)) 3) = true
  ∧ (is_finite (force_mag ci cj) = true → veq (pair_term ci cj) zero3).
Proof.
  intros Hpos Hfin.
  assert (displacement ci cj = zero3) as Hr.
  { unfold displacement, vsub. rewrite Hpos in *.
    destruct (pos cj) as [a b c]. simpl in *.
    apply Forall_cons in Hfin as [Ha Hfin].
    apply Forall_cons in Hfin as [Hb Hfin].
    apply Forall_cons in Hfin as [Hc _].
    change (mkVec3 (a - a) (b - b) (c - c) = mkVec3 0 0 0)%float.
    by rewrite !float_sub_diag. }
  split; [done|]. unfold pair_term. rewrite Hr.
  split; [reflexivity|]. split; [reflexivity|].
  intros Hfm. unfold veq, scale. simpl.
  repeat split; by apply float_mul_zero_r.
Qed.

(** The first charge of the dipole and a particle of the opposite charge
    at the same place. *)
Lemma coincident_particles_witness :
  displacement Dipole_plus twin_particle = zero3
  ∧ distance (displacement Dipole_plus twin_particle) = 1e-14%float
  ∧ veq (pair_term Dipole_plus twin_particle) zero3.
Proof.
  destruct (coincident_particles Dipole_plus twin_particle)
    as (Hr & Hd & _ & Hzero); [reflexivity|by repeat constructor|].
  split; [exact Hr|]. split; [exact Hd|]. apply Hzero. reflexivity.
Defined.
